(** * Surrogate time series: [uniform_shuffle] and [fourier_constrained_shuffle]

    A shallow embedding of [Chapter 08/graph_surrogate.py].  The two Python
    functions are written in a state-and-exception monad over a world made of
    the array store, the state of NumPy's global random generator and a log
    of what was drawn.  NumPy's numerical primitives (sorting, the discrete
    Fourier transform, floating-point arithmetic, the random draws) are an
    interface, [Numpy], with the laws the development relies on. *)

From stdpp Require Import base option list sorting gmap.

(** ** Exceptions *)

(** [ValueError], [IndexError] and [TypeError] are what NumPy and Python
    raise in the code paths below.  [InvalidInputShape] and
    [InsufficientSamples] are the two kinds of the error taxonomy of the
    design document; no statement of the source raises them. *)
Inductive exn : Set :=
  | ValueError
  | IndexError
  | TypeError
  | InvalidInputShape
  | InsufficientSamples.

Global Instance exn_eq_dec : EqDecision exn.
Proof. solve_decision. Defined.

(** ** The numerical interface *)

Class Numpy := {
  (** float64, complex128 and the state of [np.random] *)
  float : Type;
  complex : Type;
  rng_state : Type;
  (** floating-point constants and arithmetic *)
  fzero : float;
  ftwo : float;
  fpi : float;
  fmul : float → float → float;
  fneg : float → float;
  (** the order [np.sort] sorts by *)
  fle : float → float → Prop;
  (** [np.sort], [np.argsort] on floats, [np.argsort] on index arrays *)
  np_sort : list float → list float;
  np_argsort : list float → list nat;
  argsort_int : list nat → list nat;
  (** [np.std(., ddof=1)] *)
  np_std1 : list float → float;
  (** [np.fft.fft(y, m)] and [np.fft.ifft(z, m)] for [m > 0] *)
  np_fft : list float → nat → list complex;
  np_ifft : list complex → nat → list complex;
  np_abs : complex → float;
  np_angle : complex → float;
  np_real : complex → float;
  (** [np.exp(a * 1j)] and the product of a real by a complex number *)
  np_exp_j : float → complex;
  cscale : float → complex → complex;
  (** [np.random.randn(n)], [np.random.rand(n)], [np.random.permutation(n)] *)
  randn : nat → rng_state → list float * rng_state;
  rand : nat → rng_state → list float * rng_state;
  permutation : nat → rng_state → list nat * rng_state;
  (** laws *)
  np_sort_perm : ∀ l, np_sort l ≡ₚ l;
  np_sort_sorted : ∀ l, Sorted fle (np_sort l);
  np_argsort_perm : ∀ l, np_argsort l ≡ₚ seq 0 (length l);
  np_argsort_sorted : ∀ l,
    Sorted fle ((λ i, default fzero (l !! i)) <$> np_argsort l);
  argsort_int_perm : ∀ l, argsort_int l ≡ₚ seq 0 (length l);
  argsort_int_sorted : ∀ l,
    Sorted le ((λ i, default 0 (l !! i)) <$> argsort_int l);
  np_fft_length : ∀ y m, length (np_fft y m) = m;
  np_ifft_length : ∀ z m, length (np_ifft z m) = m;
  randn_length : ∀ n g, length (randn n g).1 = n;
  rand_length : ∀ n g, length (rand n g).1 = n;
  permutation_perm : ∀ n g, (permutation n g).1 ≡ₚ seq 0 n;
}.

Section surrogate.
Context `{Numpy}.

Global Instance float_inhabited : Inhabited float := populate fzero.

(** ** Arrays *)

(** An [ndarray] of dimension one or two.  A two-dimensional array carries
    its shape [(T, N)] next to its rows, so that the shape of an array
    without rows or without columns is still known, as in NumPy. *)
Inductive ndarray : Type :=
  | Arr1 (v : list float)
  | Arr2 (T N : nat) (rows : list (list float)).

Definition shape (a : ndarray) : list nat :=
  match a with
  | Arr1 v => [length v]
  | Arr2 T N _ => [T; N]
  end.

(** The rows of a two-dimensional array agree with its shape. *)
Definition wf_rows (T N : nat) (rows : list (list float)) : Prop :=
  length rows = T ∧ Forall (λ r, length r = N) rows.

Definition wf_ndarray (a : ndarray) : Prop :=
  match a with
  | Arr1 _ => True
  | Arr2 T N rows => wf_rows T N rows
  end.

(** [a[:, j]] *)
Definition col (j : nat) (rows : list (list float)) : list float :=
  (λ r, r !!! j) <$> rows.

(** The rows of [a.T]: the columns of [a]. *)
Definition columns (N : nat) (rows : list (list float)) : list (list float) :=
  (λ j, col j rows) <$> seq 0 N.

(** [a.T] *)
Definition np_transpose (a : ndarray) : ndarray :=
  match a with
  | Arr1 v => Arr1 v
  | Arr2 T N rows => Arr2 N T (columns N rows)
  end.

(** [np.array(ls)] for a Python list [ls] of one-dimensional arrays of
    length [T]: the empty list gives a one-dimensional array of shape
    [(0,)]. *)
Definition np_array (T : nat) (ls : list (list float)) : ndarray :=
  match ls with
  | [] => Arr1 []
  | _ :: _ => Arr2 (length ls) T ls
  end.

(** [np.zeros_like(a)] *)
Definition zeros_like (a : ndarray) : ndarray :=
  match a with
  | Arr1 v => Arr1 (replicate (length v) fzero)
  | Arr2 T N _ => Arr2 T N (replicate T (replicate N fzero))
  end.

(** [rows[:, j] = v] on rows of equal length *)
Definition set_col (j : nat) (v : list float) (rows : list (list float))
    : list (list float) :=
  zip_with (λ r x, <[j:=x]> r) rows v.

(** ** The world *)

(** What the random generator was asked for, with what it returned. *)
Inductive draw : Type :=
  | DrawPermutation (n : nat) (p : list nat)
  | DrawRandn (n : nat) (v : list float)
  | DrawRand (n : nat) (v : list float).

(** The calls to [np.random.rand] in a log, in order: the size asked for
    and the vector returned. *)
Definition rand_draw (d : draw) : option (nat * list float) :=
  match d with DrawRand n v => Some (n, v) | _ => None end.

Definition rand_draws (ds : list draw) : list (nat * list float) :=
  omap rand_draw ds.

(** The local variables of one iteration of the loop of
    [fourier_constrained_shuffle], as they stand when the iteration ends.
    [f_drew] tells whether this iteration called [np.random.rand]. *)
Record frame : Type := {
  f_xV_ : list float;
  f_n : nat;
  f_T : list nat;
  f_oxV : list float;
  f_ixV : list nat;
  f_wV : list float;
  f_owV : list float;
  f_yV : list float;
  f_n2 : nat;
  f_magnV : list float;
  f_fiV : list float;
  f_drew : bool;
  f_rfiV : list float;
  f_nfiV : list float;
  f_tmpV : list complex;
  f_yftV : list float;
  f_T2 : list nat;
  f_iyftV : list nat;
  f_out : list float;
}.

Definition loc := nat.

Record world : Type := {
  heap : gmap loc ndarray;
  rng : rng_state;
  draws : list draw;
  frames : list frame;
}.

Inductive outcome (A : Type) : Type :=
  | Returned (a : A) (w : world)
  | Raised (e : exn) (w : world).
Global Arguments Returned {A} a w.
Global Arguments Raised {A} e w.

Definition M (A : Type) : Type := world → outcome A.

Global Instance M_ret : MRet M := λ A a w, Returned a w.
Global Instance M_bind : MBind M := λ A B k m w,
  match m w with
  | Returned a w1 => k a w1
  | Raised e w1 => Raised e w1
  end.

Definition raise {A} (e : exn) : M A := λ w, Raised e w.

Definition final_world {A} (o : outcome A) : world :=
  match o with Returned _ w => w | Raised _ w => w end.

(** What a call returned, and what it raised. *)
Definition returned {A} (o : outcome A) : option A :=
  match o with Returned a _ => Some a | Raised _ _ => None end.

Definition raised {A} (o : outcome A) : option exn :=
  match o with Returned _ _ => None | Raised e _ => Some e end.

(** *** The store *)

(** A name of the Python program always refers to an array; the
    [TypeError] of a location outside the store is never met by a caller
    that passes an array. *)
Definition load (l : loc) : M ndarray := λ w,
  match heap w !! l with
  | Some a => Returned a w
  | None => Raised TypeError w
  end.

Definition alloc (a : ndarray) : M loc := λ w,
  let l := fresh (dom (heap w)) in
  Returned l {| heap := <[l:=a]> (heap w); rng := rng w;
                draws := draws w; frames := frames w |}.

Definition store (l : loc) (a : ndarray) : M unit := λ w,
  Returned () {| heap := <[l:=a]> (heap w); rng := rng w;
                 draws := draws w; frames := frames w |}.

Definition record_frame (fr : frame) : M unit := λ w,
  Returned () {| heap := heap w; rng := rng w;
                 draws := draws w; frames := frames w ++ [fr] |}.

(** *** The random generator *)

Definition np_random_permutation (n : nat) : M (list nat) := λ w,
  let r := permutation n (rng w) in
  Returned r.1 {| heap := heap w; rng := r.2;
                  draws := draws w ++ [DrawPermutation n r.1];
                  frames := frames w |}.

Definition np_random_randn (n : nat) : M (list float) := λ w,
  let r := randn n (rng w) in
  Returned r.1 {| heap := heap w; rng := r.2;
                  draws := draws w ++ [DrawRandn n r.1];
                  frames := frames w |}.

Definition np_random_rand (n : nat) : M (list float) := λ w,
  let r := rand n (rng w) in
  Returned r.1 {| heap := heap w; rng := r.2;
                  draws := draws w ++ [DrawRand n r.1];
                  frames := frames w |}.

(** *** Indexing *)

(** [l[idx]] for an index array [idx]: [IndexError] when an index is out of
    range. *)
Definition take_idx {A} (l : list A) (idx : list nat) : M (list A) :=
  match mapM (λ i, l !! i) idx with
  | Some r => mret r
  | None => raise IndexError
  end.

(** [l[i]] *)
Definition item {A} (l : list A) (i : nat) : M A :=
  match l !! i with
  | Some x => mret x
  | None => raise IndexError
  end.

(** [l[n2-1:0:-1]] for [n2 ≥ 1]: the entries at [n2-1], ..., [1]; a slice
    clips to the length of [l] instead of failing. *)
Definition slice_down_to_1 {A} (n2 : nat) (l : list A) : list A :=
  reverse (drop 1 (take n2 l)).

(** [a * b] on one-dimensional arrays, with NumPy's broadcasting of an
    operand of length one; other length mismatches are a [ValueError]. *)
Definition np_mul {A B D} (f : A → B → D) (a : list A) (b : list B)
    : M (list D) :=
  if decide (length a = length b) then mret (zip_with f a b)
  else match a, b with
       | [x], _ => mret (f x <$> b)
       | _, [y] => mret ((λ x, f x y) <$> a)
       | _, _ => raise ValueError
       end.

(** [np.fft.fft(y, m)] and [np.fft.ifft(z, m)]: zero points is a
    [ValueError]. *)
Definition fft (y : list float) (m : nat) : M (list complex) :=
  if decide (m = 0) then raise ValueError else mret (np_fft y m).

Definition ifft (z : list complex) (m : nat) : M (list complex) :=
  if decide (m = 0) then raise ValueError else mret (np_ifft z m).

(** [u * 2 * np.pi] *)
Definition to_phase (u : float) : float := fmul (fmul u ftwo) fpi.

(** [np.random.rand(n2-1) * 2 * np.pi]; a negative size is a [ValueError]. *)
Definition draw_phases (n2 : nat) : M (list float) :=
  if decide (n2 = 0) then raise ValueError
  else v ← np_random_rand (n2 - 1);
       mret (to_phase <$> v).

(** ** [uniform_shuffle] *)

(** [np.random.permutation(x)] for a one-dimensional array [x]: a shuffled
    copy of [x]. *)
Definition permuted (x : list float) : M (list float) :=
  p ← np_random_permutation (length x);
  take_idx x p.

Definition uniform_shuffle (xV : loc) (fixed_order : bool) : M loc :=
  a ← load xV;
  match a with
  | Arr1 _ => raise ValueError                     (* T, N = xV.shape *)
  | Arr2 T N rows =>
      if fixed_order then
        p ← np_random_permutation T;
        rows' ← take_idx rows p;
        alloc (Arr2 (length p) N rows')
      else
        cols ← mapM permuted (columns N rows);
        alloc (np_transpose (np_array T cols))
  end.

(** ** [fourier_constrained_shuffle] *)

(** The body of the loop, for the channel [xV_] and the value [rfiV] of
    the variable of that name when the iteration starts. *)
Definition channel_body (fixed_phase : bool) (rfiV : option (list float))
    (xV_ : list float) : M frame :=
  let n := length xV_ in
  let T := np_argsort xV_ in
  let oxV := np_sort xV_ in
  let ixV := argsort_int T in
  g ← np_random_randn n;
  let wV := (λ x, fmul x (np_std1 xV_)) <$> g in
  let owV := np_sort wV in
  yV ← take_idx owV ixV;
  let n2 := n `div` 2 in
  tmpV ← fft yV (2 * n2);
  let magnV := np_abs <$> tmpV in
  let fiV := np_angle <$> tmpV in
  '(drew, rfiV) ←
    match fixed_phase, rfiV with
    | true, Some r => mret (false, r)
    | _, _ => r ← draw_phases n2; mret (true, r)
    end;
  let nfiV := [fzero] ++ rfiV in
  x ← item fiV (n2 + 1);
  let nfiV := nfiV ++ [x] in
  let nfiV := nfiV ++ (fneg <$> reverse rfiV) in
  let tmpV := take (n2 + 1) magnV ++ slice_down_to_1 n2 magnV in
  tmpV ← np_mul cscale tmpV (np_exp_j <$> nfiV);
  z ← ifft tmpV n;
  let yftV := np_real <$> z in
  let T2 := np_argsort yftV in
  let iyftV := argsort_int T2 in
  out ← take_idx oxV iyftV;
  mret {| f_xV_ := xV_; f_n := n; f_T := T; f_oxV := oxV; f_ixV := ixV;
          f_wV := wV; f_owV := owV; f_yV := yV; f_n2 := n2;
          f_magnV := magnV; f_fiV := fiV; f_drew := drew;
          f_rfiV := rfiV; f_nfiV := nfiV; f_tmpV := tmpV;
          f_yftV := yftV; f_T2 := T2; f_iyftV := iyftV; f_out := out |}.

(** [zM[:, ii] = v] *)
Definition assign_col (zM : loc) (ii : nat) (v : list float) : M unit :=
  a ← load zM;
  match a with
  | Arr1 _ => raise IndexError
  | Arr2 T N rows =>
      if decide (N ≤ ii) then raise IndexError
      else if decide (length v = T) then store zM (Arr2 T N (set_col ii v rows))
      else match v with
           | [x] => store zM (Arr2 T N (set_col ii (replicate T x) rows))
           | _ => raise ValueError
           end
  end.

(** The loop over [enumerate(xV.T)], from the channel of index [ii] on. *)
Fixpoint channel_loop (fixed_phase : bool) (zM : loc)
    (rfiV : option (list float)) (ii : nat) (chans : list (list float))
    : M unit :=
  match chans with
  | [] => mret ()
  | xV_ :: rest =>
      fr ← channel_body fixed_phase rfiV xV_;
      _ ← assign_col zM ii (f_out fr);
      _ ← record_frame fr;
      channel_loop fixed_phase zM (Some (f_rfiV fr)) (S ii) rest
  end.

Definition fourier_constrained_shuffle (xV : loc) (fixed_phase : bool)
    : M loc :=
  a ← load xV;
  zM ← alloc (zeros_like a);
  match a with
  | Arr1 [] => mret zM
  | Arr1 (_ :: _) => raise TypeError               (* len() of a scalar *)
  | Arr2 T N rows =>
      _ ← channel_loop fixed_phase zM None 0 (columns N rows);
      mret zM
  end.

End surrogate.

(** ** A mock of NumPy

    Every floating-point operation is kept as an uninterpreted term over
    integer literals, the order compares the [key] of two terms, the sorts
    are merge sorts and the random generator replays a script. *)

Definition argsort_by {A} (R : relation A) `{!∀ x y, Decision (R x y)}
    (l : list A) : list nat :=
  (merge_sort (λ p q : A * nat, R p.1 q.1) (zip l (seq 0 (length l)))).*2.

Module Mock.

Local Unset Elimination Schemes.

Inductive sym : Type :=
  | Lit (z : Z)
  | Two
  | Pi
  | Mul (a b : sym)
  | Neg (a : sym)
  | Std (l : list sym)
  | Abs (c : sym)
  | Angle (c : sym)
  | Re (c : sym)
  | ExpJ (a : sym)
  | Scale (a c : sym)
  | Fft (y : list sym) (m k : nat)
  | Ifft (z : list sym) (m k : nat).

Local Set Elimination Schemes.

(** The value a term is ordered by: a literal by itself, a scaled draw by
    the draw, bin [k] of an [m]-point inverse transform by [m - k]. *)
Fixpoint key (a : sym) : Z :=
  match a with
  | Lit z => z
  | Mul a _ => key a
  | Re c => key c
  | Ifft _ m k => Z.of_nat m - Z.of_nat k
  | _ => 0
  end.

Definition le (a b : sym) : Prop := (key a ≤ key b)%Z.

Global Instance le_dec a b : Decision (le a b) := Z_le_dec (key a) (key b).

Record script : Type := {
  perms : list (list nat);
  tick : nat;
}.

Definition noise (i : nat) : Z := (Z.of_nat (i * 5 + 2) `mod` 7 - 3)%Z.

Definition phase (i : nat) : Z := (Z.of_nat (i * 3 + 1) `mod` 8)%Z.

Definition randn (n : nat) (g : script) : list sym * script :=
  ((λ i, Lit (noise (tick g + i))) <$> seq 0 n,
   {| perms := perms g; tick := tick g + n |}).

Definition rand (n : nat) (g : script) : list sym * script :=
  ((λ i, Lit (phase (tick g + i))) <$> seq 0 n,
   {| perms := perms g; tick := tick g + n |}).

(** The next scripted permutation when it is one of [0, ..., n-1], the
    reversal otherwise. *)
Definition permutation (n : nat) (g : script) : list nat * script :=
  match perms g with
  | p :: ps =>
      (if bool_decide (p ≡ₚ seq 0 n) then p else reverse (seq 0 n),
       {| perms := ps; tick := tick g |})
  | [] => (reverse (seq 0 n), g)
  end.

Definition fft (y : list sym) (m : nat) : list sym :=
  (λ k, Fft y m k) <$> seq 0 m.

Definition ifft (z : list sym) (m : nat) : list sym :=
  (λ k, Ifft z m k) <$> seq 0 m.

End Mock.

(** ** Lists, sorting and index arrays *)

Section lists.
Context {A : Type}.
Implicit Types l : list A.

Lemma fmap_lookup_seq (d : A) l :
  (λ i, default d (l !! i)) <$> seq 0 (length l) = l.
Proof.
  apply list_eq; intros i. rewrite list_lookup_fmap.
  destruct (decide (i < length l)) as [Hi|Hi].
  - rewrite lookup_seq_lt by done. simpl.
    destruct (lookup_lt_is_Some_2 l i Hi) as [x ->]. done.
  - rewrite lookup_seq_ge by lia. by rewrite lookup_ge_None_2 by lia.
Qed.

Lemma fmap_lookup_perm (d : A) l (p : list nat) :
  p ≡ₚ seq 0 (length l) → (λ i, default d (l !! i)) <$> p ≡ₚ l.
Proof.
  intros Hp. rewrite Hp. by rewrite fmap_lookup_seq.
Qed.

Lemma perm_seq_lt (p : list nat) n i :
  p ≡ₚ seq 0 n → i ∈ p → i < n.
Proof.
  intros Hp Hi. rewrite Hp in Hi. apply elem_of_seq in Hi. lia.
Qed.

Lemma perm_seq_length (p : list nat) n : p ≡ₚ seq 0 n → length p = n.
Proof. intros ->. apply length_seq. Qed.

Lemma mapM_lookup_Some l (idx : list nat) :
  Forall (λ i, i < length l) idx →
  ∀ d, mapM (λ i, l !! i) idx = Some ((λ i, default d (l !! i)) <$> idx).
Proof.
  intros Hidx d. apply mapM_Some_2.
  induction Hidx as [|i idx Hi _ IH]; simpl; constructor; [|done].
  destruct (lookup_lt_is_Some_2 l i Hi) as [x ->]. done.
Qed.

Lemma mapM_lookup_inv l (idx : list nat) r d :
  mapM (λ i, l !! i) idx = Some r →
  r = (λ i, default d (l !! i)) <$> idx ∧ Forall (λ i, i < length l) idx.
Proof.
  intros Hr. apply mapM_Some_1 in Hr.
  induction Hr as [|i x idx r Hi _ [-> IH]]; simpl; [done|].
  rewrite Hi. split; [done|]. constructor; [|done].
  by apply lookup_lt_Some in Hi.
Qed.

Lemma argsort_by_perm (R : relation A) `{!∀ x y, Decision (R x y)} l :
  argsort_by R l ≡ₚ seq 0 (length l).
Proof.
  unfold argsort_by. rewrite merge_sort_Permutation.
  rewrite snd_zip; [done|]. by rewrite length_seq.
Qed.

Lemma zip_seq_Forall l :
  Forall (λ p : A * nat, l !! p.2 = Some p.1) (zip l (seq 0 (length l))).
Proof.
  apply Forall_lookup_2. intros i [x k] Hi.
  apply lookup_zip_with_Some in Hi as (x' & k' & [= <- <-] & Hx & Hk).
  apply lookup_seq in Hk as [-> _]. done.
Qed.

Lemma argsort_by_sorted (R : relation A) `{!∀ x y, Decision (R x y)}
    `{!Total R} (d : A) l :
  Sorted R ((λ i, default d (l !! i)) <$> argsort_by R l).
Proof.
  unfold argsort_by.
  set (S := λ p q : A * nat, R p.1 q.1).
  assert (Total S) as HS by (intros p q; apply (total R)).
  pose proof (Sorted_merge_sort S (zip l (seq 0 (length l)))) as Hs.
  pose proof (zip_seq_Forall l) as Hf.
  rewrite <-(merge_sort_Permutation S) in Hf.
  revert Hs Hf. generalize (merge_sort S (zip l (seq 0 (length l)))).
  intros k Hs Hf. rewrite <-list_fmap_compose.
  assert ((λ i, default d (l !! i)) ∘ snd <$> k = k.*1) as ->.
  { apply Forall_fmap_ext_1. eapply Forall_impl; [exact Hf|].
    intros [x i] Hx; simpl in *. by rewrite Hx. }
  eapply Sorted_fmap; [|exact Hs]. by intros p q.
Qed.

End lists.

(** ** The mock satisfies the interface *)

Module MockLaws.
Import Mock.

Global Instance le_total : Total le.
Proof. intros a b. unfold le. lia. Qed.

Lemma sort_perm (l : list sym) : merge_sort le l ≡ₚ l.
Proof. apply merge_sort_Permutation. Qed.

Lemma sort_sorted (l : list sym) : Sorted le (merge_sort le l).
Proof. apply Sorted_merge_sort, _. Qed.

Lemma fft_length y m : length (fft y m) = m.
Proof. unfold fft. by rewrite length_fmap, length_seq. Qed.

Lemma ifft_length z m : length (ifft z m) = m.
Proof. unfold ifft. by rewrite length_fmap, length_seq. Qed.

Lemma randn_length n g : length (randn n g).1 = n.
Proof. simpl. by rewrite length_fmap, length_seq. Qed.

Lemma rand_length n g : length (rand n g).1 = n.
Proof. simpl. by rewrite length_fmap, length_seq. Qed.

Lemma permutation_perm n g : (permutation n g).1 ≡ₚ seq 0 n.
Proof.
  unfold permutation. destruct (perms g) as [|p ps]; simpl.
  - by rewrite reverse_Permutation.
  - case_bool_decide; [done|]. by rewrite reverse_Permutation.
Qed.

End MockLaws.

Definition mock_numpy : Numpy := {|
  float := Mock.sym;
  complex := Mock.sym;
  rng_state := Mock.script;
  fzero := Mock.Lit 0;
  ftwo := Mock.Two;
  fpi := Mock.Pi;
  fmul := Mock.Mul;
  fneg := Mock.Neg;
  fle := Mock.le;
  np_sort := merge_sort Mock.le;
  np_argsort := argsort_by Mock.le;
  argsort_int := argsort_by Nat.le;
  np_std1 := Mock.Std;
  np_fft := Mock.fft;
  np_ifft := Mock.ifft;
  np_abs := Mock.Abs;
  np_angle := Mock.Angle;
  np_real := Mock.Re;
  np_exp_j := Mock.ExpJ;
  cscale := Mock.Scale;
  randn := Mock.randn;
  rand := Mock.rand;
  permutation := Mock.permutation;
  np_sort_perm := MockLaws.sort_perm;
  np_sort_sorted := MockLaws.sort_sorted;
  np_argsort_perm := argsort_by_perm Mock.le;
  np_argsort_sorted := argsort_by_sorted Mock.le (Mock.Lit 0);
  argsort_int_perm := argsort_by_perm Nat.le;
  argsort_int_sorted := argsort_by_sorted Nat.le 0;
  np_fft_length := MockLaws.fft_length;
  np_ifft_length := MockLaws.ifft_length;
  randn_length := MockLaws.randn_length;
  rand_length := MockLaws.rand_length;
  permutation_perm := MockLaws.permutation_perm;
|}.

(** A store holding one array, and a world around it. *)
Definition mock_world (a : @ndarray mock_numpy) (ps : list (list nat))
    : @world mock_numpy :=
  @Build_world mock_numpy {[ 0 := a ]}
    {| Mock.perms := ps; Mock.tick := 0 |} [] [].

Definition lits (zs : list Z) : list Mock.sym := Mock.Lit <$> zs.

Definition column_array (zs : list Z) : @ndarray mock_numpy :=
  @Arr2 mock_numpy (length zs) 1 ((λ z, [Mock.Lit z]) <$> zs).

(** ** Index arrays that are permutations *)

Lemma Sorted_le_seq j n : Sorted Nat.le (seq j n).
Proof.
  revert j. induction n as [|n IH]; intros j; simpl; constructor.
  - apply IH.
  - destruct n; simpl; constructor. lia.
Qed.

Lemma sorted_perm_seq (q : list nat) n :
  Sorted Nat.le q → q ≡ₚ seq 0 n → q = seq 0 n.
Proof.
  intros Hs Hp. apply (Sorted_unique Nat.le); [done| |done].
  apply Sorted_le_seq.
Qed.

Section proofs.
Context `{Numpy}.

(** [argsort_int p] is the inverse of the permutation [p]. *)
Lemma argsort_int_inverse (p : list nat) n :
  p ≡ₚ seq 0 n →
  (λ i, default 0 (p !! i)) <$> argsort_int p = seq 0 n.
Proof.
  intros Hp. apply sorted_perm_seq; [apply argsort_int_sorted|].
  rewrite <-Hp. apply fmap_lookup_perm, argsort_int_perm.
Qed.

Lemma argsort_int_right_inverse (p : list nat) n k :
  p ≡ₚ seq 0 n → k < n → p !! (argsort_int p !!! k) = Some k.
Proof.
  intros Hp Hk.
  pose proof (argsort_int_inverse p n Hp) as Hinv.
  pose proof (argsort_int_perm p) as Hq.
  assert (length (argsort_int p) = n) as Hlen.
  { rewrite (perm_seq_length _ _ Hq). by apply perm_seq_length. }
  assert (((λ i, default 0 (p !! i)) <$> argsort_int p) !! k = Some k) as Hk'.
  { rewrite Hinv. by apply lookup_seq_lt. }
  rewrite list_lookup_fmap in Hk'.
  rewrite (list_lookup_lookup_total_lt (argsort_int p) k) in Hk' by lia.
  simpl in Hk'. injection Hk' as Hk'.
  assert (argsort_int p !!! k < length p) as Hlt.
  { apply (perm_seq_lt _ _ _ Hq). apply list_elem_of_lookup_total_2. lia. }
  destruct (lookup_lt_is_Some_2 p _ Hlt) as [y Hy].
  rewrite Hy in Hk' |- *. simpl in Hk'. by subst.
Qed.

Lemma argsort_int_left_inverse (p : list nat) n r :
  p ≡ₚ seq 0 n → r < n → argsort_int p !!! (p !!! r) = r.
Proof.
  intros Hp Hr.
  assert (length p = n) as Hlen by by apply perm_seq_length.
  assert (NoDup p) as Hnd by (rewrite Hp; apply NoDup_seq).
  assert (p !!! r < n) as Hpr.
  { apply (perm_seq_lt _ _ _ Hp). apply list_elem_of_lookup_total_2. lia. }
  pose proof (argsort_int_right_inverse p n (p !!! r) Hp Hpr) as Hri.
  eapply NoDup_lookup; [exact Hnd|exact Hri|].
  apply list_lookup_lookup_total_lt. lia.
Qed.

(** ** The monad *)

Lemma bind_Returned {A B} (m : M A) (k : A → M B) w b w' :
  (m ≫= k) w = Returned b w' ↔
  ∃ a w1, m w = Returned a w1 ∧ k a w1 = Returned b w'.
Proof.
  unfold mbind, M_bind. destruct (m w) as [a w1|e w1]; simpl; split.
  - intros Hk. exists a, w1. by split.
  - intros (? & ? & Heq & ?). injection Heq as <- <-. done.
  - done.
  - by intros (? & ? & [=] & ?).
Qed.

Lemma bind_Raised {A B} (m : M A) (k : A → M B) w e w' :
  (m ≫= k) w = Raised e w' ↔
  m w = Raised e w' ∨ ∃ a w1, m w = Returned a w1 ∧ k a w1 = Raised e w'.
Proof.
  unfold mbind, M_bind. destruct (m w) as [a w1|e1 w1]; simpl; split.
  - intros Hk. right. exists a, w1. by split.
  - intros [Heq|(? & ? & Heq & ?)]; [discriminate Heq|].
    injection Heq as <- <-. done.
  - intros [= -> ->]. by left.
  - intros [[= -> ->]|(? & ? & [=] & ?)]. done.
Qed.

Lemma returned_final {A} (o : outcome A) a :
  returned o = Some a → o = Returned a (final_world o).
Proof. destruct o; [by intros [= ->]|done]. Qed.

Lemma raised_final {A} (o : outcome A) e :
  raised o = Some e → o = Raised e (final_world o).
Proof. destruct o; [done|by intros [= ->]]. Qed.

Lemma bind_step {A B} (m : M A) (k : A → M B) w a w1 :
  m w = Returned a w1 → (m ≫= k) w = k a w1.
Proof. unfold mbind, M_bind. by intros ->. Qed.

Lemma bind_fail {A B} (m : M A) (k : A → M B) w e w1 :
  m w = Raised e w1 → (m ≫= k) w = Raised e w1.
Proof. unfold mbind, M_bind. by intros ->. Qed.

Lemma take_idx_Returned {A} (d : A) (l : list A) idx w r w' :
  take_idx l idx w = Returned r w' ↔
  w' = w ∧ r = (λ i, default d (l !! i)) <$> idx ∧
  Forall (λ i, i < length l) idx.
Proof.
  unfold take_idx. split.
  - destruct (mapM _ idx) as [r'|] eqn:Hm; [|done].
    intros [= <- <-]. by apply (mapM_lookup_inv _ _ _ d) in Hm as [-> ?].
  - intros (-> & -> & Hidx). by rewrite (mapM_lookup_Some _ _ Hidx d).
Qed.

Lemma take_idx_perm (d : float) (l : list float) idx w :
  idx ≡ₚ seq 0 (length l) →
  ∃ r, take_idx l idx w = Returned r w ∧ r ≡ₚ l ∧
       r = (λ i, default d (l !! i)) <$> idx.
Proof.
  intros Hidx. exists ((λ i, default d (l !! i)) <$> idx). split_and!.
  - apply (take_idx_Returned d). split_and!; [done..|].
    apply Forall_forall. intros i Hi. by eapply perm_seq_lt.
  - by apply fmap_lookup_perm.
  - done.
Qed.

Lemma item_Returned {A} (l : list A) i w x w' :
  item l i w = Returned x w' ↔ w' = w ∧ l !! i = Some x.
Proof.
  unfold item. destruct (l !! i); split; try done.
  - by intros [= <- <-].
  - by intros [-> [= <-]].
  - by intros [_ ?].
Qed.

Lemma fft_Returned y m w z w' :
  fft y m w = Returned z w' ↔ w' = w ∧ m ≠ 0 ∧ z = np_fft y m.
Proof.
  unfold fft. case_decide; split; try done.
  - by intros (_ & ? & _).
  - by intros [= <- <-].
  - by intros (-> & _ & ->).
Qed.

Lemma ifft_Returned z m w y w' :
  ifft z m w = Returned y w' ↔ w' = w ∧ m ≠ 0 ∧ y = np_ifft z m.
Proof.
  unfold ifft. case_decide; split; try done.
  - by intros (_ & ? & _).
  - by intros [= <- <-].
  - by intros (-> & _ & ->).
Qed.

Lemma np_mul_Returned {A B D} (f : A → B → D) a b w r w' :
  2 ≤ length a → 2 ≤ length b →
  np_mul f a b w = Returned r w' ↔
  w' = w ∧ length a = length b ∧ r = zip_with f a b.
Proof.
  intros Ha Hb. unfold np_mul. case_decide as Hl; split.
  - by intros [= <- <-].
  - by intros (-> & _ & ->).
  - destruct a as [|? [|? ?]]; simpl in *; try lia.
    destruct b as [|? [|? ?]]; simpl in *; try lia; done.
  - by intros (_ & ? & _).
Qed.

(** ** One iteration of the loop *)

(** When the variable [rfiV] is reused, it has the length the channel
    needs. *)
Definition phase_ok (fixed_phase : bool) (rfiV : option (list float))
    (n : nat) : Prop :=
  fixed_phase = true → ∀ r, rfiV = Some r → length r = n `div` 2 - 1.

(** Whether an iteration calls [np.random.rand]. *)
Definition must_draw (fixed_phase : bool) (rfiV : option (list float))
    : bool :=
  match fixed_phase, rfiV with true, Some _ => false | _, _ => true end.

(** What a completed iteration on the channel [x] leaves behind. *)
Record channel_spec (fixed_phase : bool) (rfiV : option (list float))
    (x : list float) (w : world) (fr : frame) (w' : world) : Prop := {
  cs_heap : heap w' = heap w;
  cs_frames : frames w' = frames w;
  cs_xV_ : f_xV_ fr = x;
  cs_n : f_n fr = length x;
  cs_n2 : f_n2 fr = length x `div` 2;
  cs_size : 4 ≤ length x;
  cs_oxV : f_oxV fr = np_sort x;
  cs_magnV : f_magnV fr = np_abs <$> np_fft (f_yV fr) (2 * f_n2 fr);
  cs_fiV : f_fiV fr = np_angle <$> np_fft (f_yV fr) (2 * f_n2 fr);
  cs_rfiV_length : length (f_rfiV fr) = f_n2 fr - 1;
  cs_nfiV : f_nfiV fr =
    [fzero] ++ f_rfiV fr ++ [f_fiV fr !!! (f_n2 fr + 1)]
      ++ (fneg <$> reverse (f_rfiV fr));
  cs_yftV : f_yftV fr = np_real <$> np_ifft (f_tmpV fr) (f_n fr);
  cs_T2 : f_T2 fr = np_argsort (f_yftV fr);
  cs_iyftV : f_iyftV fr = argsort_int (f_T2 fr);
  cs_out : f_out fr = (λ i, default fzero (f_oxV fr !! i)) <$> f_iyftV fr;
  cs_drew : f_drew fr = must_draw fixed_phase rfiV;
  cs_draws :
    ∃ g, if f_drew fr
         then ∃ v, f_rfiV fr = to_phase <$> v ∧
                draws w' = draws w ++ [DrawRandn (f_n fr) g;
                                       DrawRand (f_n2 fr - 1) v]
         else rfiV = Some (f_rfiV fr) ∧
              draws w' = draws w ++ [DrawRandn (f_n fr) g];
}.

Ltac bind_ok := apply bind_Returned; eexists _, _; split.

Lemma div2_ge_2 n : 4 ≤ n → 2 ≤ n `div` 2.
Proof. intros Hn. apply Nat.div_le_lower_bound; lia. Qed.

Lemma slice_down_to_1_length {A} n2 (l : list A) :
  n2 ≤ length l → length (slice_down_to_1 n2 l) = n2 - 1.
Proof.
  intros Hl. unfold slice_down_to_1.
  rewrite length_reverse, length_drop, length_take. lia.
Qed.

Lemma channel_body_returns fixed_phase rfiV x w :
  4 ≤ length x → phase_ok fixed_phase rfiV (length x) →
  ∃ fr w', channel_body fixed_phase rfiV x w = Returned fr w' ∧
           channel_spec fixed_phase rfiV x w fr w'.
Proof.
  intros Hn Hok.
  pose proof (div2_ge_2 _ Hn) as Hn2.
  assert (length (np_sort x) = length x) as Hox
    by (apply Permutation_length, np_sort_perm).
  assert (∃ r drew w1 g,
    let w0 := {| heap := heap w; rng := (randn (length x) (rng w)).2;
                 draws := draws w ++ [DrawRandn (length x) g];
                 frames := frames w |} in
    g = (randn (length x) (rng w)).1 ∧
    match fixed_phase, rfiV with
    | true, Some r => mret (false, r)
    | _, _ => r ← draw_phases (length x `div` 2); mret (true, r)
    end w0 = Returned (drew, r) w1 ∧
    length r = length x `div` 2 - 1 ∧ heap w1 = heap w ∧
    frames w1 = frames w ∧
    drew = must_draw fixed_phase rfiV ∧
    if drew
    then ∃ v, r = to_phase <$> v ∧
              draws w1 = draws w ++ [DrawRandn (length x) g;
                                     DrawRand (length x `div` 2 - 1) v]
    else rfiV = Some r ∧ draws w1 = draws w ++ [DrawRandn (length x) g])
    as (r & drew & w1 & g & Hg & Hphase & Hr & Hh1 & Hf1 & Hdrew & Hdraws).
  { assert (∀ w0, ∃ v, (r ← draw_phases (length x `div` 2); mret (true, r)) w0
      = Returned (true, to_phase <$> v)
          {| heap := heap w0; rng := (rand (length x `div` 2 - 1) (rng w0)).2;
             draws := draws w0 ++ [DrawRand (length x `div` 2 - 1) v];
             frames := frames w0 |} ∧
        length v = length x `div` 2 - 1) as Hdraw.
    { intros w0. eexists. split; [|apply rand_length].
      unfold draw_phases. case_decide; [lia|]. reflexivity. }
    destruct fixed_phase, rfiV as [r|];
      try (edestruct Hdraw as (v & Hv & Hlen);
           eexists _, true, _, _; simpl; split; [done|];
           split; [exact Hv|]; simpl; rewrite length_fmap;
           split_and!; try done; exists v; split; [done|];
           by rewrite <-(assoc_L (++))).
    eexists r, false, _, _; simpl. split_and!; try done.
    by apply Hok. }
  simpl in Hphase.
  eexists _, _. split.
  - unfold channel_body. cbv zeta.
    bind_ok; [reflexivity|]. cbv beta.
    bind_ok.
    { apply (take_idx_Returned fzero). split_and!; [reflexivity..|].
      apply Forall_forall. intros i Hi.
      eapply perm_seq_lt; [|exact Hi].
      rewrite argsort_int_perm.
      rewrite (perm_seq_length _ _ (np_argsort_perm x)).
      rewrite (Permutation_length (np_sort_perm _)), length_fmap.
      by rewrite randn_length. }
    cbv beta. bind_ok.
    { apply fft_Returned. split_and!; [reflexivity|lia|reflexivity]. }
    cbv beta. bind_ok; [rewrite <-Hg; exact Hphase|]. cbv beta iota.
    bind_ok.
    { apply item_Returned. split; [reflexivity|].
      apply list_lookup_lookup_total_lt.
      rewrite length_fmap, np_fft_length. lia. }
    cbv beta. bind_ok.
    { apply np_mul_Returned.
      - rewrite length_app, length_take, length_fmap, np_fft_length. lia.
      - rewrite length_fmap, !length_app. cbn [length]. lia.
      - split_and!; [reflexivity| |reflexivity].
        rewrite length_fmap, !length_app, length_take, length_fmap.
        rewrite slice_down_to_1_length
          by (rewrite length_fmap, np_fft_length; lia).
        rewrite length_fmap, np_fft_length, length_reverse. cbn [length]. lia. }
    cbv beta. bind_ok.
    { apply ifft_Returned. split_and!; [reflexivity|lia|reflexivity]. }
    cbv beta. bind_ok; [|reflexivity].
    apply (take_idx_Returned fzero). split_and!; [reflexivity..|].
    apply Forall_forall. intros i Hi.
    eapply perm_seq_lt; [|exact Hi].
    rewrite argsort_int_perm.
    rewrite (perm_seq_length _ _ (np_argsort_perm _)).
    by rewrite length_fmap, np_ifft_length, Hox.
  - split; simpl; try done.
    + by rewrite <-(assoc_L (++)).
    + exists g. destruct drew; [|done].
      destruct Hdraws as (v & -> & ->). by exists v.
Qed.

Lemma rank_match_ok (x wV : list float) w :
  length wV = length x →
  take_idx (np_sort wV) (argsort_int (np_argsort x)) w =
  Returned ((λ i, default fzero (np_sort wV !! i))
              <$> argsort_int (np_argsort x)) w.
Proof.
  intros Hlen. apply (take_idx_Returned fzero). split_and!; [done..|].
  apply Forall_forall. intros i Hi. eapply perm_seq_lt; [|exact Hi].
  rewrite argsort_int_perm.
  rewrite (perm_seq_length _ _ (np_argsort_perm x)).
  by rewrite (Permutation_length (np_sort_perm _)), Hlen.
Qed.

Lemma tmpV_length (magnV : list float) n2 :
  length magnV = 2 * n2 → 2 ≤ n2 →
  length (take (n2 + 1) magnV ++ slice_down_to_1 n2 magnV) = 2 * n2.
Proof.
  intros Hm Hn2. rewrite length_app, length_take.
  rewrite slice_down_to_1_length by lia. lia.
Qed.

Lemma channel_body_inv fixed_phase rfiV x w fr w' :
  channel_body fixed_phase rfiV x w = Returned fr w' →
  4 ≤ length x ∧ phase_ok fixed_phase rfiV (length x).
Proof.
  intros Hret. unfold channel_body in Hret. cbv zeta in Hret.
  apply bind_Returned in Hret as (g & w1 & _ & Hret). cbv beta in Hret.
  apply bind_Returned in Hret as (yV & w2 & _ & Hret). cbv beta in Hret.
  apply bind_Returned in Hret as (tmpV & w3 & Hfft & Hret).
  apply fft_Returned in Hfft as (-> & _ & ->). cbv beta in Hret.
  apply bind_Returned in Hret as ([drew r] & w4 & Hph & Hret).
  cbv beta iota in Hret.
  apply bind_Returned in Hret as (xi & w5 & Hitem & Hret).
  apply item_Returned in Hitem as (-> & Hlk). cbv beta in Hret.
  apply lookup_lt_Some in Hlk. rewrite length_fmap, np_fft_length in Hlk.
  assert (2 ≤ length x `div` 2) as Hn2 by lia.
  assert (4 ≤ length x) as Hn.
  { pose proof (Nat.Div0.mul_div_le (length x) 2). lia. }
  split; [done|].
  apply bind_Returned in Hret as (t & w6 & Hmul & _).
  apply np_mul_Returned in Hmul as (_ & Hlen & _).
  - rewrite tmpV_length in Hlen
      by (rewrite ?length_fmap, ?np_fft_length; lia).
    rewrite length_fmap, !length_app, length_fmap, length_reverse in Hlen.
    cbn [length] in Hlen.
    intros -> r0 ->. injection Hph as _ <- _. lia.
  - rewrite tmpV_length by (rewrite ?length_fmap, ?np_fft_length; lia). lia.
  - rewrite length_fmap, !length_app. cbn [length]. lia.
Qed.

Lemma channel_body_spec fixed_phase rfiV x w fr w' :
  channel_body fixed_phase rfiV x w = Returned fr w' →
  channel_spec fixed_phase rfiV x w fr w'.
Proof.
  intros Hret. destruct (channel_body_inv _ _ _ _ _ _ Hret) as [Hn Hok].
  destruct (channel_body_returns fixed_phase rfiV x w Hn Hok)
    as (fr' & w'' & Hret' & Hspec).
  rewrite Hret in Hret'. by injection Hret' as <- <-.
Qed.

(** Channels too short for the transform. *)
Lemma channel_body_no_points fixed_phase rfiV x w :
  length x ≤ 1 →
  ∃ w', channel_body fixed_phase rfiV x w = Raised ValueError w' ∧
        heap w' = heap w ∧ frames w' = frames w.
Proof.
  intros Hn. eexists. split.
  - unfold channel_body. cbv zeta.
    erewrite bind_step by reflexivity.
    erewrite bind_step by (apply rank_match_ok; by rewrite length_fmap, randn_length).
    apply bind_fail. unfold fft.
    assert (length x `div` 2 = 0) as -> by (apply Nat.div_small; lia).
    reflexivity.
  - done.
Qed.

Lemma channel_body_no_bin fixed_phase rfiV x w :
  length x = 2 ∨ length x = 3 →
  ∃ w', channel_body fixed_phase rfiV x w = Raised IndexError w' ∧
        heap w' = heap w ∧ frames w' = frames w.
Proof.
  intros Hn.
  assert (length x `div` 2 = 1) as Hn2.
  { destruct Hn as [-> | ->]; reflexivity. }
  assert (∃ dr w1, ∀ w0, w0 = {| heap := heap w;
              rng := (randn (length x) (rng w)).2;
              draws := draws w ++ [DrawRandn (length x)
                                     (randn (length x) (rng w)).1];
              frames := frames w |} →
    match fixed_phase, rfiV with
    | true, Some r => mret (false, r)
    | _, _ => r ← draw_phases (length x `div` 2); mret (true, r)
    end w0 = Returned dr w1 ∧ heap w1 = heap w ∧ frames w1 = frames w)
    as (dr & w1 & Hph).
  { rewrite Hn2.
    destruct fixed_phase, rfiV as [r|];
      try (eexists _, _; intros w0 ->; split; [reflexivity|done]). }
  destruct (Hph _ eq_refl) as (Hph' & Hh & Hf).
  eexists. split.
  - unfold channel_body. cbv zeta.
    erewrite bind_step by reflexivity.
    erewrite bind_step by (apply rank_match_ok; by rewrite length_fmap, randn_length).
    erewrite bind_step
      by (apply fft_Returned; split_and!; [reflexivity|lia|reflexivity]).
    erewrite bind_step by exact Hph'.
    destruct dr as [drew r]. cbv beta iota.
    apply bind_fail. unfold item.
    rewrite lookup_ge_None_2; [reflexivity|].
    rewrite length_fmap, np_fft_length. lia.
  - done.
Qed.

(** ** Columns *)

Lemma col_length j rows : length (col j rows) = length rows.
Proof. unfold col. by rewrite length_fmap. Qed.

Lemma columns_length N rows : length (columns N rows) = N.
Proof. unfold columns. by rewrite length_fmap, length_seq. Qed.

Lemma columns_lookup N rows j :
  j < N → columns N rows !! j = Some (col j rows).
Proof.
  intros Hj. unfold columns. rewrite list_lookup_fmap.
  by rewrite lookup_seq_lt.
Qed.

Lemma columns_lookup_inv N rows j c :
  columns N rows !! j = Some c → j < N ∧ c = col j rows.
Proof.
  intros Hc. assert (j < N) as Hj.
  { apply lookup_lt_Some in Hc. by rewrite columns_length in Hc. }
  rewrite columns_lookup in Hc by done. by injection Hc as <-.
Qed.

Lemma columns_Forall_length N rows :
  Forall (λ c, length c = length rows) (columns N rows).
Proof.
  apply Forall_forall. intros c Hc. unfold columns in Hc.
  apply list_elem_of_fmap in Hc as (j & -> & _). apply col_length.
Qed.

Lemma set_col_length j v rows :
  length v = length rows → length (set_col j v rows) = length rows.
Proof. intros Hv. unfold set_col. rewrite length_zip_with. lia. Qed.

Lemma col_set_col_eq j v rows :
  length v = length rows → Forall (λ r, j < length r) rows →
  col j (set_col j v rows) = v.
Proof.
  intros Hlen Hrows. revert v Hlen.
  induction Hrows as [|r rows Hr _ IH]; intros [|y v] Hlen;
    simpl in *; try done.
  f_equal; [by apply list_lookup_total_insert_eq|]. apply IH. lia.
Qed.

Lemma col_set_col_ne j k v rows :
  j ≠ k → length v = length rows →
  col k (set_col j v rows) = col k rows.
Proof.
  intros Hjk. revert v.
  induction rows as [|r rows IH]; intros [|y v] Hlen; simpl in *; try done.
  f_equal; [by apply list_lookup_total_insert_ne|]. apply IH. lia.
Qed.

Lemma wf_rows_set_col T N j v rows :
  wf_rows T N rows → length v = T → wf_rows T N (set_col j v rows).
Proof.
  intros [HT HN] Hv. split.
  - rewrite set_col_length; lia.
  - clear HT Hv. revert v.
    induction HN as [|r rows Hr _ IH]; intros [|y v]; simpl;
      constructor; [|by apply IH].
    by rewrite length_insert.
Qed.

Lemma wf_rows_zeros T N :
  wf_rows T N (replicate T (replicate N fzero)).
Proof.
  split; [by rewrite length_replicate|].
  apply Forall_replicate. by rewrite length_replicate.
Qed.

(** ** The loop *)

Definition with_heap (w : world) (h : gmap loc ndarray) : world :=
  {| heap := h; rng := rng w; draws := draws w; frames := frames w |}.

Lemma assign_col_Returned zM ii v w T N rows :
  heap w !! zM = Some (Arr2 T N rows) → ii < N → length v = T →
  assign_col zM ii v w =
  Returned () (with_heap w (<[zM := Arr2 T N (set_col ii v rows)]> (heap w))).
Proof.
  intros Hz Hii Hv. unfold assign_col.
  erewrite bind_step by (unfold load; by rewrite Hz).
  cbv beta iota. case_decide; [lia|]. case_decide; [|done]. reflexivity.
Qed.

Lemma channel_loop_cons fixed_phase zM rfiV ii x rest w w' :
  channel_loop fixed_phase zM rfiV ii (x :: rest) w = Returned () w' →
  ∃ fr w1 w2,
    channel_body fixed_phase rfiV x w = Returned fr w1 ∧
    assign_col zM ii (f_out fr) w1 = Returned () w2 ∧
    channel_loop fixed_phase zM (Some (f_rfiV fr)) (S ii) rest
      {| heap := heap w2; rng := rng w2; draws := draws w2;
         frames := frames w2 ++ [fr] |} = Returned () w'.
Proof.
  simpl. intros Hret.
  apply bind_Returned in Hret as (fr & w1 & Hbody & Hret).
  apply bind_Returned in Hret as ([] & w2 & Hassign & Hret).
  apply bind_Returned in Hret as ([] & w3 & Hrec & Hret).
  injection Hrec as <-. by exists fr, w1, w2.
Qed.

Lemma f_out_length fixed_phase rfiV x w fr w' :
  channel_spec fixed_phase rfiV x w fr w' → length (f_out fr) = length x.
Proof.
  intros Hs. rewrite (cs_out _ _ _ _ _ _ Hs), length_fmap.
  rewrite (cs_iyftV _ _ _ _ _ _ Hs).
  rewrite (perm_seq_length _ _ (argsort_int_perm _)).
  rewrite (cs_T2 _ _ _ _ _ _ Hs).
  rewrite (perm_seq_length _ _ (np_argsort_perm _)).
  rewrite (cs_yftV _ _ _ _ _ _ Hs), length_fmap, np_ifft_length.
  apply (cs_n _ _ _ _ _ _ Hs).
Qed.

(** The facts about a frame that do not mention the worlds around it. *)
Definition frame_of (x : list float) (fr : frame) : Prop :=
  ∃ fixed_phase rfiV w w', channel_spec fixed_phase rfiV x w fr w'.

Lemma channel_loop_spec fixed_phase zM chans :
  ∀ rfiV ii w w' T N rows,
    heap w !! zM = Some (Arr2 T N rows) → wf_rows T N rows →
    ii + length chans ≤ N → Forall (λ c, length c = T) chans →
    channel_loop fixed_phase zM rfiV ii chans w = Returned () w' →
    ∃ rows' frs,
      heap w' = <[zM := Arr2 T N rows']> (heap w) ∧
      wf_rows T N rows' ∧
      frames w' = frames w ++ frs ∧
      Forall2 frame_of chans frs ∧
      (∀ k fr, frs !! k = Some fr → col (ii + k) rows' = f_out fr) ∧
      (∀ j, j < ii → col j rows' = col j rows).
Proof.
  induction chans as [|x rest IH];
    intros rfiV ii w w' T N rows Hz Hwf Hii Hlen Hret.
  - injection Hret as <-. exists rows, []. split_and!; try done.
    + by rewrite insert_id.
    + by rewrite (right_id_L [] (++)).
  - apply channel_loop_cons in Hret as (fr & w1 & w2 & Hbody & Hassign & Hret).
    apply channel_body_spec in Hbody.
    apply Forall_cons in Hlen as [Hx Hlen]. simpl in Hii.
    pose proof (f_out_length _ _ _ _ _ _ Hbody) as Hout.
    assert (heap w1 !! zM = Some (Arr2 T N rows)) as Hz1
      by by rewrite (cs_heap _ _ _ _ _ _ Hbody).
    rewrite (assign_col_Returned _ _ _ _ T N rows) in Hassign
      by (done || lia).
    injection Hassign as <-.
    pose proof (wf_rows_set_col T N ii (f_out fr) rows Hwf ltac:(lia)) as Hwf2.
    eapply (IH _ _ _ _ T N) in Hret; [|by apply lookup_insert_eq|done|lia|done].
    destruct Hret as (rows' & frs & Hh & Hwf' & Hfr & Hfrs & Hcols & Hold).
    exists rows', (fr :: frs). simpl in *. split_and!.
    + by rewrite Hh, insert_insert_eq, (cs_heap _ _ _ _ _ _ Hbody).
    + done.
    + by rewrite Hfr, (cs_frames _ _ _ _ _ _ Hbody), <-(assoc_L (++)).
    + constructor; [|done]. by eexists _, _, _, _.
    + intros [|k] fr' Hk; simplify_eq/=.
      * rewrite Nat.add_0_r, Hold by lia.
        destruct Hwf as [HT HN]. apply col_set_col_eq; [lia|].
        eapply Forall_impl; [exact HN|]. simpl. lia.
      * rewrite <-Nat.add_succ_comm. by apply Hcols.
    + intros j Hj. rewrite Hold by lia.
      destruct Hwf as [HT HN]. apply col_set_col_ne; lia.
Qed.

Lemma channel_loop_returns fixed_phase zM chans :
  ∀ rfiV ii w T N rows,
    heap w !! zM = Some (Arr2 T N rows) → wf_rows T N rows →
    ii + length chans ≤ N → Forall (λ c, length c = T) chans →
    4 ≤ T → phase_ok fixed_phase rfiV T →
    ∃ w', channel_loop fixed_phase zM rfiV ii chans w = Returned () w'.
Proof.
  induction chans as [|x rest IH];
    intros rfiV ii w T N rows Hz Hwf Hii Hlen HT Hok.
  - by eexists.
  - apply Forall_cons in Hlen as [Hx Hlen]. simpl in Hii. subst T.
    destruct (channel_body_returns fixed_phase rfiV x w HT Hok)
      as (fr & w1 & Hbody & Hspec).
    pose proof (f_out_length _ _ _ _ _ _ Hspec) as Hout.
    assert (heap w1 !! zM = Some (Arr2 (length x) N rows)) as Hz1
      by by rewrite (cs_heap _ _ _ _ _ _ Hspec).
    pose proof (assign_col_Returned zM ii (f_out fr) w1 _ _ _ Hz1
                  ltac:(lia) Hout) as Hassign.
    simpl. erewrite bind_step by exact Hbody.
    erewrite bind_step by exact Hassign.
    erewrite bind_step by reflexivity.
    eapply (IH _ _ _ (length x) N).
    + simpl. apply lookup_insert_eq.
    + by apply wf_rows_set_col.
    + lia.
    + done.
    + done.
    + intros _ r [= <-].
      rewrite (cs_rfiV_length _ _ _ _ _ _ Hspec).
      by rewrite (cs_n2 _ _ _ _ _ _ Hspec).
Qed.

Lemma channel_loop_raises fixed_phase zM rfiV ii x rest w :
  length x < 4 →
  ∃ w', channel_loop fixed_phase zM rfiV ii (x :: rest) w =
          Raised (if decide (length x ≤ 1) then ValueError else IndexError) w'.
Proof.
  intros Hx. case_decide as Hx1.
  - destruct (channel_body_no_points fixed_phase rfiV x w Hx1)
      as (w' & Hbody & _).
    exists w'. simpl. by apply bind_fail.
  - destruct (channel_body_no_bin fixed_phase rfiV x w ltac:(lia))
      as (w' & Hbody & _).
    exists w'. simpl. by apply bind_fail.
Qed.

(** ** What a computation leaves of the store *)

Definition keeps_heap {A} (m : M A) : Prop :=
  ∀ w, heap (final_world (m w)) = heap w.

Lemma keeps_heap_ret {A} (a : A) : keeps_heap (mret a).
Proof. done. Qed.

Lemma keeps_heap_raise {A} e : keeps_heap (@raise _ A e).
Proof. done. Qed.

Lemma keeps_heap_bind {A B} (m : M A) (k : A → M B) :
  keeps_heap m → (∀ a, keeps_heap (k a)) → keeps_heap (m ≫= k).
Proof.
  intros Hm Hk w. specialize (Hm w). unfold mbind, M_bind.
  destruct (m w) as [a w1|e w1]; simpl in *; [|done].
  by rewrite Hk.
Qed.

Lemma keeps_heap_take_idx {A} (l : list A) idx : keeps_heap (take_idx l idx).
Proof. intros w. unfold take_idx. by destruct (mapM _ _). Qed.

Lemma keeps_heap_item {A} (l : list A) i : keeps_heap (item l i).
Proof. intros w. unfold item. by destruct (l !! i). Qed.

Lemma keeps_heap_fft y m : keeps_heap (fft y m).
Proof. intros w. unfold fft. by case_decide. Qed.

Lemma keeps_heap_ifft z m : keeps_heap (ifft z m).
Proof. intros w. unfold ifft. by case_decide. Qed.

Lemma keeps_heap_np_mul {A B D} (f : A → B → D) a b :
  keeps_heap (np_mul f a b).
Proof.
  intros w. unfold np_mul. case_decide; [done|].
  destruct a as [|? [|? ?]], b as [|? [|? ?]]; done.
Qed.

Lemma keeps_heap_draw_phases n2 : keeps_heap (draw_phases n2).
Proof. intros w. unfold draw_phases. by case_decide. Qed.

Lemma keeps_heap_permuted x : keeps_heap (permuted x).
Proof.
  apply keeps_heap_bind; [done|]. intros p. apply keeps_heap_take_idx.
Qed.

Lemma keeps_heap_mapM {A B} (f : A → M B) (l : list A) :
  (∀ x, keeps_heap (f x)) → keeps_heap (mapM f l).
Proof.
  intros Hf. induction l as [|x l IH]; simpl; [done|].
  apply keeps_heap_bind; [done|]. intros y.
  apply keeps_heap_bind; [done|]. by intros k.
Qed.

Lemma keeps_heap_channel_body fixed_phase rfiV x :
  keeps_heap (channel_body fixed_phase rfiV x).
Proof.
  unfold channel_body. cbv zeta.
  apply keeps_heap_bind; [done|]. intros g.
  apply keeps_heap_bind; [apply keeps_heap_take_idx|]. intros yV.
  apply keeps_heap_bind; [apply keeps_heap_fft|]. intros tmpV.
  apply keeps_heap_bind.
  { destruct fixed_phase, rfiV as [r|]; try done;
      (apply keeps_heap_bind; [apply keeps_heap_draw_phases|done]). }
  intros [drew r].
  apply keeps_heap_bind; [apply keeps_heap_item|]. intros xi.
  apply keeps_heap_bind; [apply keeps_heap_np_mul|]. intros t.
  apply keeps_heap_bind; [apply keeps_heap_ifft|]. intros z.
  apply keeps_heap_bind; [apply keeps_heap_take_idx|]. by intros out.
Qed.

(** The store outside of [zM] after [zM[:, ii] = v], and after the loop,
    whether they return or raise. *)
Lemma assign_col_frame zM ii v w l :
  l ≠ zM → heap (final_world (assign_col zM ii v w)) !! l = heap w !! l.
Proof.
  intros Hl. unfold assign_col, mbind, M_bind, load.
  destruct (heap w !! zM) as [[v0|T N rows]|]; try done.
  case_decide; [done|]. case_decide.
  - simpl. by rewrite lookup_insert_ne.
  - destruct v as [|? [|? ?]]; try done. simpl. by rewrite lookup_insert_ne.
Qed.

Lemma channel_loop_frame fixed_phase zM l chans :
  l ≠ zM →
  ∀ rfiV ii w,
    heap (final_world (channel_loop fixed_phase zM rfiV ii chans w)) !! l
    = heap w !! l.
Proof.
  intros Hl. induction chans as [|x rest IH]; intros rfiV ii w; [done|].
  simpl. unfold mbind, M_bind.
  pose proof (keeps_heap_channel_body fixed_phase rfiV x w) as Hbody.
  destruct (channel_body fixed_phase rfiV x w) as [fr w1|e w1];
    simpl in Hbody |- *; [|by rewrite Hbody].
  pose proof (assign_col_frame zM ii (f_out fr) w1 l Hl) as Hassign.
  destruct (assign_col zM ii (f_out fr) w1) as [[] w2|e w2];
    simpl in Hassign |- *; [|by rewrite Hassign, Hbody].
  fold (@mbind M _). rewrite IH. simpl. by rewrite Hassign, Hbody.
Qed.

(** ** The phases across the channels *)

Lemma assign_col_log zM ii v w w' :
  assign_col zM ii v w = Returned () w' →
  draws w' = draws w ∧ frames w' = frames w.
Proof.
  unfold assign_col, mbind, M_bind, load.
  destruct (heap w !! zM) as [[v0|T N rows]|]; try done.
  case_decide; [done|]. case_decide.
  - by intros [= <-].
  - destruct v as [|? [|? ?]]; try done. by intros [= <-].
Qed.

(** One iteration, seen from the log. *)
Lemma channel_loop_step fixed_phase zM rfiV ii x rest w w' :
  channel_loop fixed_phase zM rfiV ii (x :: rest) w = Returned () w' →
  ∃ fr w3 g,
    channel_loop fixed_phase zM (Some (f_rfiV fr)) (S ii) rest w3
      = Returned () w' ∧
    frames w3 = frames w ++ [fr] ∧
    f_drew fr = must_draw fixed_phase rfiV ∧
    length (f_rfiV fr) = length x `div` 2 - 1 ∧
    if f_drew fr
    then ∃ v, f_rfiV fr = to_phase <$> v ∧
              draws w3 = draws w ++ [DrawRandn (length x) g;
                                     DrawRand (length x `div` 2 - 1) v]
    else rfiV = Some (f_rfiV fr) ∧
         draws w3 = draws w ++ [DrawRandn (length x) g].
Proof.
  intros Hret.
  apply channel_loop_cons in Hret as (fr & w1 & w2 & Hbody & Hassign & Hret).
  apply channel_body_spec in Hbody. apply assign_col_log in Hassign as [Hd Hf].
  destruct (cs_draws _ _ _ _ _ _ Hbody) as [g Hg].
  rewrite (cs_n2 _ _ _ _ _ _ Hbody), (cs_n _ _ _ _ _ _ Hbody) in Hg.
  eexists fr, _, g. split; [exact Hret|]. simpl. split_and!.
  - by rewrite Hf, (cs_frames _ _ _ _ _ _ Hbody).
  - apply (cs_drew _ _ _ _ _ _ Hbody).
  - rewrite (cs_rfiV_length _ _ _ _ _ _ Hbody).
    by rewrite (cs_n2 _ _ _ _ _ _ Hbody).
  - rewrite Hd. destruct (f_drew fr); [|done].
    destruct Hg as (v & ? & ?). by exists v.
Qed.

Lemma channel_loop_shared zM chans :
  ∀ r ii w w',
    channel_loop true zM (Some r) ii chans w = Returned () w' →
    ∃ frs ds,
      frames w' = frames w ++ frs ∧ draws w' = draws w ++ ds ∧
      length frs = length chans ∧
      Forall (λ fr, f_drew fr = false ∧ f_rfiV fr = r) frs ∧
      rand_draws ds = [].
Proof.
  induction chans as [|x rest IH]; intros r ii w w' Hret.
  - injection Hret as <-. exists [], [].
    by rewrite !(right_id_L [] (++)).
  - apply channel_loop_step
      in Hret as (fr & w3 & g & Hret & Hf & Hdrew & _ & Hd).
    rewrite Hdrew in Hd. destruct Hd as [[= Hr] Hd]. rewrite <-Hr in Hret.
    apply IH in Hret as (frs & ds & Hfrs & Hds & Hlen & Hall & Hnone).
    exists (fr :: frs), (DrawRandn (length x) g :: ds). split_and!.
    + by rewrite Hfrs, Hf, <-(assoc_L (++)).
    + by rewrite Hds, Hd, <-(assoc_L (++)).
    + simpl. by rewrite Hlen.
    + by constructor.
    + done.
Qed.

Lemma channel_loop_first zM x rest ii w w' :
  channel_loop true zM None ii (x :: rest) w = Returned () w' →
  ∃ fr0 frs ds v,
    frames w' = frames w ++ fr0 :: frs ∧ draws w' = draws w ++ ds ∧
    length frs = length rest ∧
    f_drew fr0 = true ∧ f_rfiV fr0 = to_phase <$> v ∧
    length v = length x `div` 2 - 1 ∧
    rand_draws ds = [(length x `div` 2 - 1, v)] ∧
    Forall (λ fr, f_drew fr = false ∧ f_rfiV fr = f_rfiV fr0) frs.
Proof.
  intros Hret.
  apply channel_loop_step
    in Hret as (fr & w3 & g & Hret & Hf & Hdrew & Hlen0 & Hd).
  rewrite Hdrew in Hd. destruct Hd as (v & Hv & Hd).
  apply channel_loop_shared
    in Hret as (frs & ds & Hfrs & Hds & Hlen & Hall & Hnone).
  exists fr, frs,
    ([DrawRandn (length x) g; DrawRand (length x `div` 2 - 1) v] ++ ds), v.
  split_and!; try done.
  - by rewrite Hfrs, Hf, <-(assoc_L (++)).
  - by rewrite Hds, Hd, <-(assoc_L (++)).
  - by rewrite Hv, length_fmap in Hlen0.
  - unfold rand_draws in *. by rewrite omap_app, Hnone.
Qed.

Lemma channel_loop_free zM T chans :
  Forall (λ c, length c = T) chans →
  ∀ rfiV ii w w',
    channel_loop false zM rfiV ii chans w = Returned () w' →
    ∃ frs ds vs,
      frames w' = frames w ++ frs ∧ draws w' = draws w ++ ds ∧
      length frs = length chans ∧
      Forall2 (λ fr v, f_drew fr = true ∧ f_rfiV fr = to_phase <$> v ∧
                       length v = T `div` 2 - 1) frs vs ∧
      rand_draws ds = (λ v, (T `div` 2 - 1, v)) <$> vs.
Proof.
  induction 1 as [|x rest Hx _ IH]; intros rfiV ii w w' Hret.
  - injection Hret as <-. exists [], [], [].
    by rewrite !(right_id_L [] (++)).
  - apply channel_loop_step
      in Hret as (fr & w3 & g & Hret & Hf & Hdrew & Hlen0 & Hd).
    simpl in Hdrew. rewrite Hdrew in Hd. destruct Hd as (v & Hv & Hd).
    rewrite Hx in *.
    apply IH in Hret as (frs & ds & vs & Hfrs & Hds & Hlen & Hall & Hrand).
    exists (fr :: frs),
      ([DrawRandn T g; DrawRand (T `div` 2 - 1) v] ++ ds), (v :: vs).
    split_and!.
    + by rewrite Hfrs, Hf, <-(assoc_L (++)).
    + by rewrite Hds, Hd, <-(assoc_L (++)).
    + simpl. by rewrite Hlen.
    + constructor; [|done]. split_and!; [done..|].
      by rewrite Hv, length_fmap in Hlen0.
    + unfold rand_draws in *. by rewrite omap_app, Hrand.
Qed.

(** ** [fourier_constrained_shuffle] as a whole *)

Lemma fresh_loc_ne (w : world) xV a :
  heap w !! xV = Some a → fresh (dom (heap w)) ≠ xV.
Proof.
  intros Hx Heq. apply (is_fresh (dom (heap w))). rewrite Heq.
  by apply elem_of_dom_2 in Hx.
Qed.

Lemma fcs_unfold xV fixed_phase w T N rows :
  heap w !! xV = Some (Arr2 T N rows) →
  let zM := fresh (dom (heap w)) in
  fourier_constrained_shuffle xV fixed_phase w =
  (_ ← channel_loop fixed_phase zM None 0 (columns N rows); mret zM)
    (with_heap w (<[zM := Arr2 T N (replicate T (replicate N fzero))]>
                    (heap w))).
Proof.
  intros Hx zM. unfold fourier_constrained_shuffle.
  erewrite bind_step by (unfold load; by rewrite Hx).
  erewrite bind_step by reflexivity. reflexivity.
Qed.

Lemma fcs_spec xV fixed_phase w T N rows z w' :
  heap w !! xV = Some (Arr2 T N rows) → wf_rows T N rows →
  fourier_constrained_shuffle xV fixed_phase w = Returned z w' →
  ∃ rows' frs,
    z ≠ xV ∧ heap w' = <[z := Arr2 T N rows']> (heap w) ∧
    wf_rows T N rows' ∧ frames w' = frames w ++ frs ∧
    ∀ j, j < N →
      ∃ fr, frs !! j = Some fr ∧ frame_of (col j rows) fr ∧
            col j rows' = f_out fr.
Proof.
  intros Hx Hwf Hret. rewrite (fcs_unfold _ _ _ _ _ _ Hx) in Hret.
  apply bind_Returned in Hret as ([] & w1 & Hloop & Hret).
  injection Hret as <- <-.
  eapply (channel_loop_spec _ _ _ _ _ _ _ T N) in Hloop.
  - destruct Hloop as (rows' & frs & Hh & Hwf' & Hfr & Hfrs & Hcols & _).
    exists rows', frs. simpl in *. split_and!; try done.
    + by eapply fresh_loc_ne.
    + by rewrite Hh, insert_insert_eq.
    + intros j Hj.
      pose proof (columns_lookup N rows j Hj) as Hc.
      destruct (Forall2_lookup_l _ _ _ _ _ Hfrs Hc) as (fr & Hfr' & Hof).
      exists fr. split_and!; [done..|]. by apply (Hcols j).
  - simpl. apply lookup_insert_eq.
  - apply wf_rows_zeros.
  - by rewrite columns_length.
  - destruct Hwf as [<- _]. apply columns_Forall_length.
Qed.

Lemma fcs_returns xV fixed_phase w T N rows :
  heap w !! xV = Some (Arr2 T N rows) → wf_rows T N rows → 4 ≤ T →
  ∃ z w', fourier_constrained_shuffle xV fixed_phase w = Returned z w'.
Proof.
  intros Hx Hwf HT. rewrite (fcs_unfold _ _ _ _ _ _ Hx).
  set (zM := fresh (dom (heap w))).
  set (zeros := replicate T (replicate N fzero)).
  destruct (channel_loop_returns fixed_phase zM (columns N rows) None 0
              (with_heap w (<[zM := Arr2 T N zeros]> (heap w))) T N zeros)
    as (w1 & Hloop).
  - simpl. apply lookup_insert_eq.
  - apply wf_rows_zeros.
  - by rewrite columns_length.
  - destruct Hwf as [<- _]. apply columns_Forall_length.
  - done.
  - by intros _ r.
  - eexists _, _. erewrite bind_step by exact Hloop. reflexivity.
Qed.

Lemma fcs_raises xV fixed_phase w T N rows :
  heap w !! xV = Some (Arr2 T N rows) → wf_rows T N rows →
  T < 4 → 1 ≤ N →
  ∃ w', fourier_constrained_shuffle xV fixed_phase w =
          Raised (if decide (T ≤ 1) then ValueError else IndexError) w'.
Proof.
  intros Hx [HT _] Hlt HN. rewrite (fcs_unfold _ _ _ _ _ _ Hx).
  unfold columns. destruct N as [|N]; [lia|]. cbn [seq]. rewrite fmap_cons.
  set (zM := fresh (dom (heap w))).
  match goal with
  | |- ∃ _, (channel_loop _ _ _ _ (?x :: ?rest) ≫= _) ?w0 = _ =>
      destruct (channel_loop_raises fixed_phase zM None 0 x rest w0)
        as (w1 & Hloop)
  end.
  - by rewrite col_length, HT.
  - rewrite col_length, HT in Hloop. exists w1. by apply bind_fail.
Qed.

(** ** [uniform_shuffle] as a whole *)

Lemma uniform_shuffle_fixed xV w T N rows :
  heap w !! xV = Some (Arr2 T N rows) → wf_rows T N rows →
  let r := permutation T (rng w) in
  let z := fresh (dom (heap w)) in
  uniform_shuffle xV true w =
  Returned z
    {| heap := <[z := Arr2 (length r.1) N
                         ((λ i, default [] (rows !! i)) <$> r.1)]> (heap w);
       rng := r.2;
       draws := draws w ++ [DrawPermutation T r.1];
       frames := frames w |}.
Proof.
  intros Hx [HT _] r z. unfold uniform_shuffle.
  erewrite bind_step by (unfold load; by rewrite Hx). cbv beta iota.
  erewrite bind_step by reflexivity.
  erewrite bind_step; cycle 1.
  { apply (take_idx_Returned []). split_and!; [reflexivity..|].
    apply Forall_forall. intros i Hi. eapply perm_seq_lt; [|exact Hi].
    rewrite HT. apply permutation_perm. }
  reflexivity.
Qed.

Lemma permuted_returns (x : list float) w :
  let r := permutation (length x) (rng w) in
  permuted x w =
  Returned ((λ i, default fzero (x !! i)) <$> r.1)
    {| heap := heap w; rng := r.2;
       draws := draws w ++ [DrawPermutation (length x) r.1];
       frames := frames w |}.
Proof.
  intros r. unfold permuted. erewrite bind_step by reflexivity.
  apply (take_idx_Returned fzero). split_and!; [reflexivity..|].
  apply Forall_forall. intros i Hi. eapply perm_seq_lt; [|exact Hi].
  apply permutation_perm.
Qed.

Lemma mapM_permuted_returns (cs : list (list float)) :
  ∀ w, ∃ cs' w',
    mapM permuted cs w = Returned cs' w' ∧ heap w' = heap w ∧
    Forall2 (λ c c', c' ≡ₚ c) cs cs'.
Proof.
  induction cs as [|c cs IH]; intros w.
  - by exists [], w.
  - pose proof (permuted_returns c w) as Hc. simpl in Hc.
    match type of Hc with _ = Returned ?c' ?w1 =>
      destruct (IH w1) as (cs' & w' & Hcs & Hh & Hall);
      exists (c' :: cs'), w' end.
    split_and!.
    + simpl. erewrite bind_step by exact Hc.
      erewrite bind_step by exact Hcs. reflexivity.
    + by rewrite Hh.
    + constructor; [|done]. apply fmap_lookup_perm, permutation_perm.
Qed.

Lemma col_columns T (cols : list (list float)) j c :
  cols !! j = Some c → length c = T → col j (columns T cols) = c.
Proof.
  intros Hj Hc. unfold columns, col. rewrite <-list_fmap_compose.
  transitivity ((λ i, default fzero (c !! i)) <$> seq 0 T);
    [|by rewrite <-Hc, fmap_lookup_seq].
  apply list_fmap_ext. intros _ i _. simpl.
  rewrite list_lookup_total_alt, list_lookup_fmap, Hj. simpl.
  rewrite list_lookup_total_alt. reflexivity.
Qed.

Lemma wf_rows_columns T (cols : list (list float)) :
  wf_rows T (length cols) (columns T cols).
Proof.
  split; [apply columns_length|]. apply columns_Forall_length.
Qed.

Lemma uniform_shuffle_free xV w T N rows :
  heap w !! xV = Some (Arr2 T N rows) → wf_rows T N rows →
  ∃ cols' w1,
    let z := fresh (dom (heap w)) in
    uniform_shuffle xV false w =
    Returned z (with_heap w1 (<[z := np_transpose (np_array T cols')]>
                                (heap w))) ∧
    Forall2 (λ c c', c' ≡ₚ c) (columns N rows) cols'.
Proof.
  intros Hx Hwf.
  destruct (mapM_permuted_returns (columns N rows) w)
    as (cols' & w1 & Hcols & Hh & Hall).
  exists cols', w1. split; [|done]. unfold uniform_shuffle.
  erewrite bind_step by (unfold load; by rewrite Hx). cbv beta iota.
  erewrite bind_step by exact Hcols.
  unfold alloc, with_heap. by rewrite Hh.
Qed.

(** ** Channels of the results *)

Lemma col_take_rows j (rows : list (list float)) (p : list nat) :
  col j ((λ i, default [] (rows !! i)) <$> p) =
  (λ i, default fzero (col j rows !! i)) <$> p.
Proof.
  unfold col. rewrite <-list_fmap_compose. apply list_fmap_ext.
  intros _ i _. simpl. rewrite list_lookup_fmap.
  by destruct (rows !! i).
Qed.

Lemma frame_lengths x fr :
  frame_of x fr →
  length (f_oxV fr) = length x ∧ length (f_yftV fr) = length x ∧
  f_T2 fr ≡ₚ seq 0 (length x) ∧ f_iyftV fr ≡ₚ seq 0 (length x).
Proof.
  intros (fp & rfiV & w & w' & Hs).
  assert (length (f_yftV fr) = length x) as Hy.
  { rewrite (cs_yftV _ _ _ _ _ _ Hs), length_fmap, np_ifft_length.
    apply (cs_n _ _ _ _ _ _ Hs). }
  assert (f_T2 fr ≡ₚ seq 0 (length x)) as HT2.
  { rewrite (cs_T2 _ _ _ _ _ _ Hs), <-Hy. apply np_argsort_perm. }
  split_and!; [|done..|].
  - rewrite (cs_oxV _ _ _ _ _ _ Hs). apply Permutation_length, np_sort_perm.
  - rewrite (cs_iyftV _ _ _ _ _ _ Hs).
    rewrite <-(perm_seq_length _ _ HT2). apply argsort_int_perm.
Qed.

Lemma frame_out_perm x fr : frame_of x fr → f_out fr ≡ₚ x.
Proof.
  intros Hof. destruct (frame_lengths x fr Hof) as (Hox & _ & _ & Hi).
  destruct Hof as (fp & rfiV & w & w' & Hs).
  rewrite (cs_out _ _ _ _ _ _ Hs).
  etrans; [|apply (np_sort_perm x)]. rewrite <-(cs_oxV _ _ _ _ _ _ Hs).
  apply fmap_lookup_perm. by rewrite Hox.
Qed.

Lemma uniform_shuffle_columns xV fixed_order w T N rows :
  heap w !! xV = Some (Arr2 T N rows) → wf_rows T N rows → 1 ≤ N →
  ∃ z w' rows',
    uniform_shuffle xV fixed_order w = Returned z w' ∧ z ≠ xV ∧
    heap w' = <[z := Arr2 T N rows']> (heap w) ∧ wf_rows T N rows' ∧
    ∀ j, j < N → col j rows' ≡ₚ col j rows.
Proof.
  intros Hx Hwf HN. pose proof (fresh_loc_ne w xV _ Hx) as Hz.
  destruct fixed_order.
  - pose proof (uniform_shuffle_fixed xV w T N rows Hx Hwf) as Hret.
    simpl in Hret.
    pose proof (permutation_perm T (rng w)) as Hp.
    rewrite (perm_seq_length _ _ Hp) in Hret.
    eexists _, _, _. split; [exact Hret|]. destruct Hwf as [HT HNs].
    split_and!; try done.
    + split; [by rewrite length_fmap, (perm_seq_length _ _ Hp)|].
      apply Forall_fmap, Forall_forall. intros i Hi. simpl.
      assert (i < length rows) as Hlt
        by (rewrite HT; by eapply perm_seq_lt).
      destruct (lookup_lt_is_Some_2 rows i Hlt) as [r Hr]. rewrite Hr.
      simpl. eapply Forall_lookup_1 in HNs; [exact HNs|exact Hr].
    + intros j Hj. rewrite col_take_rows. apply fmap_lookup_perm.
      by rewrite col_length, HT.
  - destruct (uniform_shuffle_free xV w T N rows Hx Hwf)
      as (cols' & w1 & Hret & Hall).
    simpl in Hret.
    assert (length cols' = N) as Hlen.
    { rewrite <-(Forall2_length _ _ _ Hall). apply columns_length. }
    assert (np_transpose (np_array T cols') = Arr2 T N (columns T cols'))
      as Hshape.
    { destruct cols' as [|c cols']; simpl in *; [lia|]. by rewrite Hlen. }
    rewrite Hshape in Hret. eexists _, _, _. split; [exact Hret|].
    split_and!; try done.
    + rewrite <-Hlen. apply wf_rows_columns.
    + intros j Hj.
      destruct (Forall2_lookup_l _ _ _ _ _ Hall (columns_lookup N rows j Hj))
        as (c' & Hc' & Hperm).
      rewrite (col_columns T cols' j c' Hc'); [done|].
      rewrite (Permutation_length Hperm), col_length. apply Hwf.
Qed.

(** C4: each output channel of [uniform_shuffle] and of
    [fourier_constrained_shuffle], in either mode, is a permutation of the
    same channel of the input: on an input with at least one channel
    [uniform_shuffle] returns such an array, every array that
    [fourier_constrained_shuffle] returns is such an array, and it returns
    one when there are at least four samples. *)
Theorem shuffles_permute_each_channel xV mode w T N rows :
  heap w !! xV = Some (Arr2 T N rows) → wf_rows T N rows → 1 ≤ N →
  (∃ z w' rows',
     uniform_shuffle xV mode w = Returned z w' ∧
     heap w' !! z = Some (Arr2 T N rows') ∧
     ∀ j, j < N → col j rows' ≡ₚ col j rows) ∧
  (∀ z w',
     fourier_constrained_shuffle xV mode w = Returned z w' →
     ∃ rows', heap w' !! z = Some (Arr2 T N rows') ∧
              ∀ j, j < N → col j rows' ≡ₚ col j rows) ∧
  (4 ≤ T →
   ∃ z w', fourier_constrained_shuffle xV mode w = Returned z w').
Proof.
  intros Hx Hwf HN. split_and!.
  - destruct (uniform_shuffle_columns xV mode w T N rows Hx Hwf HN)
      as (z & w' & rows' & Hret & _ & Hh & _ & Hcols).
    exists z, w', rows'. split_and!; [done| |done].
    rewrite Hh. apply lookup_insert_eq.
  - intros z w' Hret.
    destruct (fcs_spec _ _ _ _ _ _ _ _ Hx Hwf Hret)
      as (rows' & frs & _ & Hh & _ & _ & Hcols).
    exists rows'. split; [rewrite Hh; apply lookup_insert_eq|].
    intros j Hj. destruct (Hcols j Hj) as (fr & _ & Hof & ->).
    by apply frame_out_perm.
  - intros HT. by eapply fcs_returns.
Qed.

(** C5: the result of [uniform_shuffle] and of
    [fourier_constrained_shuffle], in either mode, is a well-formed array
    of the shape [(T, N)] of the input: on an input with at least one
    channel [uniform_shuffle] returns such an array, every array that
    [fourier_constrained_shuffle] returns is such an array, and it returns
    one when there are at least four samples. *)
Theorem shuffles_preserve_shape xV mode w T N rows :
  heap w !! xV = Some (Arr2 T N rows) → wf_rows T N rows → 1 ≤ N →
  (∃ z w' a',
     uniform_shuffle xV mode w = Returned z w' ∧
     heap w' !! z = Some a' ∧ shape a' = [T; N] ∧ wf_ndarray a') ∧
  (∀ z w',
     fourier_constrained_shuffle xV mode w = Returned z w' →
     ∃ a', heap w' !! z = Some a' ∧ shape a' = [T; N] ∧ wf_ndarray a') ∧
  (4 ≤ T →
   ∃ z w', fourier_constrained_shuffle xV mode w = Returned z w').
Proof.
  intros Hx Hwf HN. split_and!.
  - destruct (uniform_shuffle_columns xV mode w T N rows Hx Hwf HN)
      as (z & w' & rows' & Hret & _ & Hh & Hwf' & _).
    exists z, w', (Arr2 T N rows'). split_and!; [done| |done..].
    rewrite Hh. apply lookup_insert_eq.
  - intros z w' Hret.
    destruct (fcs_spec _ _ _ _ _ _ _ _ Hx Hwf Hret)
      as (rows' & frs & _ & Hh & Hwf' & _).
    exists (Arr2 T N rows'). split_and!; [|done..].
    rewrite Hh. apply lookup_insert_eq.
  - intros HT. by eapply fcs_returns.
Qed.

(** ** Ranks *)





(** ** The fixed order of [uniform_shuffle] *)

(** C6: with [fixed_order=True], [uniform_shuffle] asks the generator
    once, for the permutation [p = np.random.permutation(T)] that the
    generator gives in its state at the call, and leaves the generator in
    the state after that draw; row [i] of the result is row [p[i]] of the
    input, the same for every channel; with one sample the result is the
    input, and when the generator gives [[3,0,4,1,5,2]] the column
    [x1, ..., x6] becomes [x4, x1, x5, x2, x6, x3]. *)
Theorem fixed_order_applies_one_permutation xV w T N rows :
  heap w !! xV = Some (Arr2 T N rows) → wf_rows T N rows →
  ∃ p z w' rows',
    p = (permutation T (rng w)).1 ∧
    uniform_shuffle xV true w = Returned z w' ∧
    rng w' = (permutation T (rng w)).2 ∧
    draws w' = draws w ++ [DrawPermutation T p] ∧
    p ≡ₚ seq 0 T ∧
    heap w' !! z = Some (Arr2 T N rows') ∧ wf_rows T N rows' ∧
    (∀ i, i < T → rows' !! i = rows !! (p !!! i)) ∧
    (∀ i j, i < T → j < N →
       (rows' !!! i) !!! j = (rows !!! (p !!! i)) !!! j) ∧
    (T = 1 → rows' = rows) ∧
    (∀ x1 x2 x3 x4 x5 x6,
       rows = [[x1]; [x2]; [x3]; [x4]; [x5]; [x6]] →
       (permutation T (rng w)).1 = [3; 0; 4; 1; 5; 2] →
       rows' = [[x4]; [x1]; [x5]; [x2]; [x6]; [x3]]).
Proof.
  intros Hx Hwf.
  pose proof (uniform_shuffle_fixed xV w T N rows Hx Hwf) as Hret.
  simpl in Hret.
  pose proof (permutation_perm T (rng w)) as Hp.
  set (p := (permutation T (rng w)).1) in *.
  pose proof (perm_seq_length _ _ Hp) as Hlen. rewrite Hlen in Hret.
  destruct Hwf as [HT HN].
  assert (∀ i, i < T →
    ((λ i, default [] (rows !! i)) <$> p) !! i = rows !! (p !!! i)) as Hrow.
  { intros i Hi. rewrite list_lookup_fmap.
    rewrite (list_lookup_lookup_total_lt p i) by lia. simpl.
    assert (p !!! i < length rows) as Hlt.
    { rewrite HT. eapply perm_seq_lt; [exact Hp|].
      apply list_elem_of_lookup_total_2. lia. }
    by destruct (lookup_lt_is_Some_2 _ _ Hlt) as [r ->]. }
  exists p. eexists _, _, ((λ i, default [] (rows !! i)) <$> p).
  split; [done|]. split; [exact Hret|]. simpl.
  split_and!; try done.
  - apply lookup_insert_eq.
  - split; [by rewrite length_fmap|].
    apply Forall_fmap, Forall_forall. intros i Hi. simpl.
    assert (i < length rows) as Hlt by (rewrite HT; by eapply perm_seq_lt).
    destruct (lookup_lt_is_Some_2 rows i Hlt) as [r Hr]. rewrite Hr.
    simpl. eapply Forall_lookup_1 in HN; [exact HN|exact Hr].
  - intros i j Hi _. f_equal.
    rewrite (list_lookup_total_alt _ i), Hrow by done.
    symmetry. apply list_lookup_total_alt.
  - intros ->. destruct rows as [|r [|? ?]]; simplify_eq/=.
    assert (p = [0]) as -> by by apply Permutation_singleton_r.
    done.
  - intros x1 x2 x3 x4 x5 x6 -> ->. done.
Qed.

(** ** The phase at the Nyquist index *)

(** C1: in every call that returns, the phase that the iteration on
    channel [j] puts at index [n2] of the new phases [nfiV] is the entry
    [n2 + 1] of the phases [fiV] of the forward transform, the angle of
    its bin [n2 + 1]; it is not read at bin [n2]. *)
Theorem nyquist_phase_is_bin_after_nyquist xV mode w T N rows z w' :
  heap w !! xV = Some (Arr2 T N rows) → wf_rows T N rows →
  fourier_constrained_shuffle xV mode w = Returned z w' →
  ∃ frs,
    frames w' = frames w ++ frs ∧
    ∀ j, j < N →
      ∃ fr, frs !! j = Some fr ∧ f_xV_ fr = col j rows ∧
        f_n2 fr = T `div` 2 ∧
        f_fiV fr = np_angle <$> np_fft (f_yV fr) (2 * f_n2 fr) ∧
        f_nfiV fr !! f_n2 fr = f_fiV fr !! (f_n2 fr + 1) ∧
        ∃ c, np_fft (f_yV fr) (2 * f_n2 fr) !! (f_n2 fr + 1) = Some c ∧
             f_nfiV fr !! f_n2 fr = Some (np_angle c).
Proof.
  intros Hx Hwf Hret.
  destruct (fcs_spec _ _ _ _ _ _ _ _ Hx Hwf Hret)
    as (rows' & frs & _ & _ & _ & Hfrs & Hcols).
  exists frs. split; [done|]. intros j Hj.
  destruct (Hcols j Hj) as (fr & Hfr & (fp & rfiV & w0 & w1 & Hs) & _).
  assert (length (col j rows) = T) as Hlen
    by (rewrite col_length; apply Hwf).
  pose proof (cs_n2 _ _ _ _ _ _ Hs) as Hn2. rewrite Hlen in Hn2.
  pose proof (cs_size _ _ _ _ _ _ Hs) as Hsize. rewrite Hlen in Hsize.
  pose proof (div2_ge_2 _ Hsize) as Hge. rewrite <-Hn2 in Hge.
  pose proof (cs_fiV _ _ _ _ _ _ Hs) as HfiV.
  assert (f_nfiV fr !! f_n2 fr = f_fiV fr !! (f_n2 fr + 1)) as Hnyq.
  { rewrite (cs_nfiV _ _ _ _ _ _ Hs).
    change ([fzero] ++ ?l) with (fzero :: l).
    replace (f_n2 fr) with (S (length (f_rfiV fr))) at 1
      by (rewrite (cs_rfiV_length _ _ _ _ _ _ Hs); lia).
    rewrite lookup_cons_ne_0 by done. simpl.
    rewrite list_lookup_middle by done.
    symmetry. apply list_lookup_lookup_total_lt.
    rewrite HfiV, length_fmap, np_fft_length. lia. }
  exists fr. split_and!; try done.
  - apply (cs_xV_ _ _ _ _ _ _ Hs).
  - destruct (lookup_lt_is_Some_2 (np_fft (f_yV fr) (2 * f_n2 fr))
                (f_n2 fr + 1)) as [c Hc]; [rewrite np_fft_length; lia|].
    exists c. split; [done|].
    by rewrite Hnyq, HfiV, list_lookup_fmap, Hc.
Qed.

(** ** Inputs with fewer than four samples *)

Lemma fcs_no_channel xV mode w T rows :
  heap w !! xV = Some (Arr2 T 0 rows) →
  ∃ z w', fourier_constrained_shuffle xV mode w = Returned z w'.
Proof.
  intros Hx. rewrite (fcs_unfold _ _ _ _ _ _ Hx). by eexists _, _.
Qed.

(** C2, as the code has it: the code has no check of the number of
    samples and no input makes it raise [InsufficientSamples]; with at
    most one sample and at least one channel the call raises NumPy's
    [ValueError] for a transform of zero points, and returns no array. *)
Theorem too_few_samples_raise_numpy_errors xV mode w a :
  heap w !! xV = Some a → wf_ndarray a →
  (∀ w', fourier_constrained_shuffle xV mode w
           ≠ Raised InsufficientSamples w') ∧
  (∀ T N rows, a = Arr2 T N rows → T ≤ 1 → 1 ≤ N →
     ∃ w', fourier_constrained_shuffle xV mode w = Raised ValueError w').
Proof.
  intros Hx Hwf. split.
  - intros w' Hret. destruct a as [[|x v]|T N rows].
    + revert Hret. unfold fourier_constrained_shuffle.
      erewrite bind_step by (unfold load; by rewrite Hx).
      by erewrite bind_step by reflexivity.
    + revert Hret. unfold fourier_constrained_shuffle.
      erewrite bind_step by (unfold load; by rewrite Hx).
      by erewrite bind_step by reflexivity.
    + destruct (decide (N = 0)) as [->|HN].
      { destruct (fcs_no_channel xV mode w T rows Hx) as (z & w1 & Hz).
        by rewrite Hz in Hret. }
      destruct (decide (T < 4)) as [HT|HT].
      * destruct (fcs_raises xV mode w T N rows Hx Hwf HT ltac:(lia))
          as (w1 & Hz).
        rewrite Hz in Hret. by case_decide.
      * destruct (fcs_returns xV mode w T N rows Hx Hwf ltac:(lia))
          as (z & w1 & Hz).
        by rewrite Hz in Hret.
  - intros T N rows -> HT HN.
    destruct (fcs_raises xV mode w T N rows Hx Hwf ltac:(lia) HN)
      as (w' & Hret).
    exists w'. rewrite Hret. by case_decide.
Qed.

(** ** Malformed inputs of [uniform_shuffle] *)

(** C3, as the code has it: [uniform_shuffle] checks nothing. On a
    one-dimensional array unpacking the shape raises [ValueError]; on every
    two-dimensional array, one without samples or without channels
    included, it returns an array and raises nothing. *)
Theorem uniform_shuffle_checks_nothing xV mode w a :
  heap w !! xV = Some a → wf_ndarray a →
  match a with
  | Arr1 _ => uniform_shuffle xV mode w = Raised ValueError w
  | Arr2 T N rows =>
      ∃ z w' a', uniform_shuffle xV mode w = Returned z w' ∧
                 heap w' !! z = Some a'
  end.
Proof.
  intros Hx Hwf. destruct a as [v|T N rows].
  - unfold uniform_shuffle.
    by erewrite bind_step by (unfold load; by rewrite Hx).
  - destruct mode.
    + pose proof (uniform_shuffle_fixed xV w T N rows Hx Hwf) as Hret.
      simpl in Hret. eexists _, _, _. split; [exact Hret|].
      simpl. apply lookup_insert_eq.
    + destruct (uniform_shuffle_free xV w T N rows Hx Hwf)
        as (cols' & w1 & Hret & _).
      simpl in Hret. eexists _, _, _. split; [exact Hret|].
      simpl. apply lookup_insert_eq.
Qed.

(** ** The input array *)

Lemma final_world_bind_ret {A B} (m : M A) (b : B) w :
  final_world ((_ ← m; mret b) w) = final_world (m w).
Proof. unfold mbind, M_bind. by destruct (m w). Qed.

Lemma alloc_after {A} (m : M A) (f : A → ndarray) w xV a :
  keeps_heap m → heap w !! xV = Some a →
  heap (final_world ((x ← m; alloc (f x)) w)) !! xV = Some a ∧
  ∀ z w', (x ← m; alloc (f x)) w = Returned z w' → z ≠ xV.
Proof.
  intros Hm Hx. specialize (Hm w). unfold mbind, M_bind.
  destruct (m w) as [y w1|e w1]; simpl in *.
  - rewrite <-Hm in Hx. pose proof (fresh_loc_ne w1 xV a Hx) as Hne.
    split; [by rewrite lookup_insert_ne|]. by intros z w' [= <- _].
  - split; [by rewrite Hm|done].
Qed.

(** C10: neither function changes the array it is given, whether it
    returns or raises, and the array it returns is another one. *)
Theorem shuffles_leave_input_intact xV mode w a :
  heap w !! xV = Some a →
  heap (final_world (uniform_shuffle xV mode w)) !! xV = Some a ∧
  heap (final_world (fourier_constrained_shuffle xV mode w)) !! xV = Some a ∧
  (∀ z w', uniform_shuffle xV mode w = Returned z w' → z ≠ xV) ∧
  (∀ z w', fourier_constrained_shuffle xV mode w = Returned z w' → z ≠ xV).
Proof.
  intros Hx. pose proof (fresh_loc_ne w xV a Hx) as Hne.
  assert (heap (final_world (uniform_shuffle xV mode w)) !! xV = Some a ∧
          ∀ z w', uniform_shuffle xV mode w = Returned z w' → z ≠ xV)
    as [Hu1 Hu2].
  { unfold uniform_shuffle.
    erewrite bind_step by (unfold load; by rewrite Hx).
    destruct a as [v|T N rows]; [done|]. destruct mode.
    - unfold mbind, M_bind, np_random_permutation. cbv zeta.
      match goal with
      | |- context [take_idx ?l ?p ?w1] =>
          pose proof (keeps_heap_take_idx l p w1) as Hk;
          destruct (take_idx l p w1) as [rows' w2|e w2]
      end; simpl in Hk |- *.
      + unfold alloc. simpl. rewrite !Hk.
        split; [by rewrite lookup_insert_ne|]. by intros z w' [= <- _].
      + by rewrite Hk.
    - apply alloc_after; [|done].
      apply keeps_heap_mapM, keeps_heap_permuted. }
  assert (heap (final_world (fourier_constrained_shuffle xV mode w)) !! xV
            = Some a ∧
          ∀ z w', fourier_constrained_shuffle xV mode w = Returned z w'
                  → z ≠ xV) as [Hf1 Hf2].
  { destruct a as [[|x v]|T N rows].
    - unfold fourier_constrained_shuffle.
      erewrite bind_step by (unfold load; by rewrite Hx).
      erewrite bind_step by reflexivity. simpl.
      split; [by rewrite lookup_insert_ne|]. by intros z w' [= <- _].
    - unfold fourier_constrained_shuffle.
      erewrite bind_step by (unfold load; by rewrite Hx).
      erewrite bind_step by reflexivity. simpl.
      split; [by rewrite lookup_insert_ne|done].
    - rewrite (fcs_unfold _ _ _ _ _ _ Hx). split.
      + rewrite final_world_bind_ret, channel_loop_frame by done.
        simpl. by rewrite lookup_insert_ne.
      + intros z w' Hret.
        apply bind_Returned in Hret as ([] & w1 & _ & [= <- _]). done. }
  done.
Qed.

End proofs.

(** ** The functions on the mock *)

Module Demo.

Local Existing Instance mock_numpy.

(** One channel with four samples, one with six, and inputs that are too
    short or empty. *)
Definition rows4 : list (list float) := (λ z, [Mock.Lit z]) <$> [10; 30; 20; 40]%Z.
Definition rows6 : list (list float) := (λ z, [Mock.Lit z]) <$> [1; 2; 3; 4; 5; 6]%Z.
Definition rows2 : list (list float) := (λ z, [Mock.Lit z]) <$> [10; 30]%Z.
Definition rows1 : list (list float) := [[Mock.Lit 10]].

Definition w4 : world := mock_world (Arr2 4 1 rows4) [].
Definition w6 : world := mock_world (Arr2 6 1 rows6) [[3; 0; 4; 1; 5; 2]].
Definition w2 : world := mock_world (Arr2 2 1 rows2) [].
Definition w1 : world := mock_world (Arr2 1 1 rows1) [].
Definition w10 : world := mock_world (Arr2 1 0 [[]]) [].
Definition w0 : world := mock_world (Arr2 0 1 []) [].
Definition wflat : world := mock_world (Arr1 [Mock.Lit 10; Mock.Lit 30]) [].

(** The world a call on [w4] ends in. *)
Definition aaft4 (fixed_phase : bool) : world :=
  final_world (fourier_constrained_shuffle 0 fixed_phase w4).

Lemma aaft4_returns fixed_phase :
  fourier_constrained_shuffle 0 fixed_phase w4 = Returned 1 (aaft4 fixed_phase).
Proof.
  apply returned_final. destruct fixed_phase; vm_compute; reflexivity.
Qed.

Example aaft4_result :
  heap (aaft4 true) !! 1 =
  Some (Arr2 4 1 ((λ z, [Mock.Lit z]) <$> [40; 30; 20; 10]%Z)).
Proof. reflexivity. Qed.

Example uniform6_result :
  ∃ w', uniform_shuffle 0 true w6 = Returned 1 w' ∧
        heap w' !! 1 =
        Some (Arr2 6 1 ((λ z, [Mock.Lit z]) <$> [4; 1; 5; 2; 6; 3]%Z)).
Proof.
  exists (final_world (uniform_shuffle 0 true w6)).
  split; [|reflexivity]. apply returned_final. vm_compute. reflexivity.
Qed.

(** *** The theorems at these inputs *)

Lemma nyquist_phase_witness :
  ∃ frs,
    frames (aaft4 true) = frames w4 ++ frs ∧
    ∀ j, j < 1 →
      ∃ fr, frs !! j = Some fr ∧ f_xV_ fr = col j rows4 ∧
        f_n2 fr = 4 `div` 2 ∧
        f_fiV fr = np_angle <$> np_fft (f_yV fr) (2 * f_n2 fr) ∧
        f_nfiV fr !! f_n2 fr = f_fiV fr !! (f_n2 fr + 1) ∧
        ∃ c, np_fft (f_yV fr) (2 * f_n2 fr) !! (f_n2 fr + 1) = Some c ∧
             f_nfiV fr !! f_n2 fr = Some (np_angle c).
Proof.
  apply (nyquist_phase_is_bin_after_nyquist 0 true w4 4 1 rows4 1 (aaft4 true)).
  - reflexivity.
  - split; [reflexivity|]. repeat constructor.
  - apply returned_final. vm_compute. reflexivity.
Defined.

(** On the column [10, 30, 20, 40] the new phase at index 2 is the angle
    of bin 3 of the four-point transform. *)
Example nyquist_phase_at_four_samples :
  ∃ fr, frames (aaft4 true) = [fr] ∧
    f_nfiV fr !! 2 = Some (Mock.Angle (Mock.Fft (f_yV fr) 4 3)) ∧
    f_fiV fr !! 2 = Some (Mock.Angle (Mock.Fft (f_yV fr) 4 2)).
Proof. eexists. split_and!; reflexivity. Qed.

Lemma too_few_samples_witness :
  (∀ w', fourier_constrained_shuffle 0 true w1
           ≠ Raised InsufficientSamples w') ∧
  (∀ T N rows, Arr2 1 1 rows1 = Arr2 T N rows → T ≤ 1 → 1 ≤ N →
     ∃ w', fourier_constrained_shuffle 0 true w1 = Raised ValueError w').
Proof.
  apply (too_few_samples_raise_numpy_errors 0 true w1 (Arr2 1 1 rows1)).
  - reflexivity.
  - split; [reflexivity|]. repeat constructor.
Defined.

(** One sample: the call raises [ValueError], not [InsufficientSamples];
    one sample and no channel: it returns. *)
Lemma one_sample_raises_ValueError :
  (∃ w', fourier_constrained_shuffle 0 true w1 = Raised ValueError w') ∧
  ¬ (∃ w', fourier_constrained_shuffle 0 true w1
             = Raised InsufficientSamples w') ∧
  (∃ w', fourier_constrained_shuffle 0 true w10 = Returned 1 w' ∧
         heap w' !! 1 = Some (Arr2 1 0 [[]])).
Proof.
  split_and!.
  - exists (final_world (fourier_constrained_shuffle 0 true w1)).
    apply raised_final. vm_compute. reflexivity.
  - intros [w' Hw]. apply (f_equal raised) in Hw.
    vm_compute in Hw. discriminate Hw.
  - exists (final_world (fourier_constrained_shuffle 0 true w10)).
    split; [|reflexivity]. apply returned_final. vm_compute. reflexivity.
Qed.

Lemma uniform_shuffle_checks_nothing_witness :
  ∃ z w' a', uniform_shuffle 0 true w0 = Returned z w' ∧
             heap w' !! z = Some a'.
Proof.
  apply (uniform_shuffle_checks_nothing 0 true w0 (Arr2 0 1 [])).
  - reflexivity.
  - split; [reflexivity|]. constructor.
Defined.

(** No samples: [uniform_shuffle] returns an array without samples; a
    one-dimensional array: it raises [ValueError].  Neither raises
    [InvalidInputShape]. *)
Lemma empty_input_is_shuffled :
  (∃ w', uniform_shuffle 0 true w0 = Returned 1 w' ∧
         heap w' !! 1 = Some (Arr2 0 1 [])) ∧
  uniform_shuffle 0 true wflat = Raised ValueError wflat ∧
  ¬ (∃ w', uniform_shuffle 0 true w0 = Raised InvalidInputShape w') ∧
  ¬ (∃ w', uniform_shuffle 0 true wflat = Raised InvalidInputShape w').
Proof.
  split_and!.
  - exists (final_world (uniform_shuffle 0 true w0)).
    split; [|reflexivity]. apply returned_final. vm_compute. reflexivity.
  - reflexivity.
  - intros [w' Hw]. apply (f_equal raised) in Hw.
    vm_compute in Hw. discriminate Hw.
  - intros [w' Hw]. apply (f_equal raised) in Hw.
    vm_compute in Hw. discriminate Hw.
Qed.

Lemma permute_each_channel_witness :
  (∃ z w' rows',
     uniform_shuffle 0 false w4 = Returned z w' ∧
     heap w' !! z = Some (Arr2 4 1 rows') ∧
     ∀ j, j < 1 → col j rows' ≡ₚ col j rows4) ∧
  (∀ z w',
     fourier_constrained_shuffle 0 false w4 = Returned z w' →
     ∃ rows', heap w' !! z = Some (Arr2 4 1 rows') ∧
              ∀ j, j < 1 → col j rows' ≡ₚ col j rows4) ∧
  (4 ≤ 4 →
   ∃ z w', fourier_constrained_shuffle 0 false w4 = Returned z w').
Proof.
  apply (shuffles_permute_each_channel 0 false w4 4 1 rows4).
  - reflexivity.
  - split; [reflexivity|]. repeat constructor.
  - lia.
Defined.

Lemma preserve_shape_witness :
  (∃ z w' a',
     uniform_shuffle 0 true w4 = Returned z w' ∧
     heap w' !! z = Some a' ∧ shape a' = [4; 1] ∧ wf_ndarray a') ∧
  (∀ z w',
     fourier_constrained_shuffle 0 true w4 = Returned z w' →
     ∃ a', heap w' !! z = Some a' ∧ shape a' = [4; 1] ∧ wf_ndarray a') ∧
  (4 ≤ 4 →
   ∃ z w', fourier_constrained_shuffle 0 true w4 = Returned z w').
Proof.
  apply (shuffles_preserve_shape 0 true w4 4 1 rows4).
  - reflexivity.
  - split; [reflexivity|]. repeat constructor.
  - lia.
Defined.

(** At [w6] the generator gives [[3,0,4,1,5,2]], and the column
    [1, ..., 6] becomes [4, 1, 5, 2, 6, 3]. *)
Lemma fixed_order_witness :
  ∃ z w',
    uniform_shuffle 0 true w6 = Returned z w' ∧
    draws w' = [DrawPermutation 6 [3; 0; 4; 1; 5; 2]] ∧
    rng w' = {| Mock.perms := []; Mock.tick := 0 |} ∧
    heap w' !! z =
      Some (Arr2 6 1 ((λ z, [Mock.Lit z]) <$> [4; 1; 5; 2; 6; 3]%Z)).
Proof.
  destruct (fixed_order_applies_one_permutation 0 w6 6 1 rows6)
    as (p & z & w' & rows' & Hp & Hret & Hrng & Hd & _ & Hh & _ & _ & _ & _
        & Hex).
  - reflexivity.
  - split; [reflexivity|]. repeat constructor.
  - exists z, w'. split_and!.
    + exact Hret.
    + rewrite Hd, Hp. reflexivity.
    + rewrite Hrng. reflexivity.
    + rewrite Hh. f_equal. f_equal. apply Hex; reflexivity.
Defined.


Lemma input_intact_witness :
  heap (final_world (uniform_shuffle 0 false w4)) !! 0 = Some (Arr2 4 1 rows4) ∧
  heap (final_world (fourier_constrained_shuffle 0 false w4)) !! 0
    = Some (Arr2 4 1 rows4) ∧
  (∀ z w', uniform_shuffle 0 false w4 = Returned z w' → z ≠ 0) ∧
  (∀ z w', fourier_constrained_shuffle 0 false w4 = Returned z w' → z ≠ 0).
Proof.
  apply (shuffles_leave_input_intact 0 false w4 (Arr2 4 1 rows4)).
  reflexivity.
Defined.

End Demo.

(** * Further properties of the two functions *)

Section more.
Context `{Numpy}.

(** ** Indexing by a permutation and by its ranks *)

(** [l[p][argsort(p)] = l] *)
Lemma take_perm_then_ranks {A} (d : A) (l : list A) (p : list nat) :
  p ≡ₚ seq 0 (length l) →
  (λ k, default d (((λ i, default d (l !! i)) <$> p) !! k))
    <$> argsort_int p = l.
Proof.
  intros Hp. pose proof (perm_seq_length _ _ Hp) as Hlp.
  pose proof (argsort_int_perm p) as Hq. rewrite Hlp in Hq.
  pose proof (perm_seq_length _ _ Hq) as Hlq.
  apply list_eq. intros k. rewrite list_lookup_fmap.
  destruct (decide (k < length l)) as [Hk|Hk].
  - rewrite (list_lookup_lookup_total_lt (argsort_int p) k) by lia. simpl.
    rewrite list_lookup_fmap.
    rewrite (argsort_int_right_inverse p (length l) k Hp Hk). simpl.
    by destruct (lookup_lt_is_Some_2 l k Hk) as [y ->].
  - rewrite !lookup_ge_None_2 by lia. done.
Qed.

(** [l[argsort(p)][p] = l] *)
Lemma take_ranks_then_perm {A} (d : A) (l : list A) (p : list nat) :
  p ≡ₚ seq 0 (length l) →
  (λ r, default d (((λ i, default d (l !! i)) <$> argsort_int p) !! r))
    <$> p = l.
Proof.
  intros Hp. pose proof (perm_seq_length _ _ Hp) as Hlp.
  pose proof (argsort_int_perm p) as Hq. rewrite Hlp in Hq.
  pose proof (perm_seq_length _ _ Hq) as Hlq.
  apply list_eq. intros k. rewrite list_lookup_fmap.
  destruct (decide (k < length l)) as [Hk|Hk].
  - rewrite (list_lookup_lookup_total_lt p k) by lia. simpl.
    rewrite list_lookup_fmap.
    assert (p !!! k < length l) as Hpk.
    { eapply perm_seq_lt; [exact Hp|].
      apply list_elem_of_lookup_total_2. lia. }
    rewrite (list_lookup_lookup_total_lt (argsort_int p) (p !!! k)) by lia.
    simpl. rewrite (argsort_int_left_inverse p (length l) k Hp Hk).
    by destruct (lookup_lt_is_Some_2 l k Hk) as [y ->].
  - rewrite !lookup_ge_None_2 by lia. done.
Qed.

(** ** More of one iteration *)

(** The variables of a completed iteration that [channel_spec] leaves
    out: the ranks of the channel, the scaled noise, the series matched to
    the ranks and the spectrum handed to the inverse transform. *)
Record channel_more (x : list float) (w : world) (fr : frame) (w' : world)
    : Prop := {
  cm_T : f_T fr = np_argsort x;
  cm_ixV : f_ixV fr = argsort_int (f_T fr);
  cm_noise : ∃ g rest,
    length g = length x ∧
    f_wV fr = (λ u, fmul u (np_std1 x)) <$> g ∧
    draws w' = draws w ++ DrawRandn (length x) g :: rest;
  cm_owV : f_owV fr = np_sort (f_wV fr);
  cm_yV : f_yV fr = (λ i, default fzero (f_owV fr !! i)) <$> f_ixV fr;
  cm_tmpV : f_tmpV fr =
    zip_with cscale
      (take (f_n2 fr + 1) (f_magnV fr)
         ++ slice_down_to_1 (f_n2 fr) (f_magnV fr))
      (np_exp_j <$> f_nfiV fr);
}.

Lemma channel_body_more fixed_phase rfiV x w fr w' :
  channel_body fixed_phase rfiV x w = Returned fr w' →
  channel_more x w fr w'.
Proof.
  intros Hret.
  destruct (channel_body_inv _ _ _ _ _ _ Hret) as [Hn _].
  pose proof (div2_ge_2 _ Hn) as Hn2.
  unfold channel_body in Hret. cbv zeta in Hret.
  apply bind_Returned in Hret as (g & w1 & Hg & Hret). cbv beta in Hret.
  injection Hg as <- <-.
  apply bind_Returned in Hret as (yV & w2 & HyV & Hret). cbv beta in Hret.
  apply (take_idx_Returned fzero) in HyV as (-> & -> & _).
  apply bind_Returned in Hret as (tmpV & w3 & Hfft & Hret).
  apply fft_Returned in Hfft as (-> & _ & ->). cbv beta in Hret.
  apply bind_Returned in Hret as ([drew r] & w4 & Hph & Hret).
  cbv beta iota in Hret.
  assert (∃ rest, draws w4 =
            (draws w ++ [DrawRandn (length x) (randn (length x) (rng w)).1])
              ++ rest) as [rest Hd4].
  { clear Hret. revert Hph Hn2. generalize (length x `div` 2).
    intros n2 Hph Hn2. revert Hph.
    destruct fixed_phase, rfiV as [r0|]; simpl;
      try (intros [= _ _ <-]; exists []; by rewrite (right_id_L [] (++)));
      unfold draw_phases; (case_decide; [lia|]);
      intros [= _ _ <-]; by eexists. }
  apply bind_Returned in Hret as (xi & w5 & Hitem & Hret).
  apply item_Returned in Hitem as (-> & Hlk). cbv beta in Hret.
  apply bind_Returned in Hret as (t & w6 & Hmul & Hret). cbv beta in Hret.
  assert (w6 = w4 ∧ t = zip_with cscale
            (take (length x `div` 2 + 1)
               (np_abs <$> np_fft ((λ i, default fzero
                  (np_sort ((λ u, fmul u (np_std1 x))
                     <$> (randn (length x) (rng w)).1) !! i))
                  <$> argsort_int (np_argsort x)) (2 * (length x `div` 2)))
             ++ slice_down_to_1 (length x `div` 2)
               (np_abs <$> np_fft ((λ i, default fzero
                  (np_sort ((λ u, fmul u (np_std1 x))
                     <$> (randn (length x) (rng w)).1) !! i))
                  <$> argsort_int (np_argsort x)) (2 * (length x `div` 2))))
            (np_exp_j <$> (([fzero] ++ r) ++ [xi]) ++ (fneg <$> reverse r)))
    as [-> ->].
  { revert Hmul. unfold np_mul. case_decide as Hl; [by intros [= <- <-]|].
    match goal with
    | |- context [match ?a with [] => _ | _ => _ end] =>
        assert (2 ≤ length a) as Ha
    end.
    { rewrite tmpV_length by (rewrite ?length_fmap, ?np_fft_length; lia).
      lia. }
    match goal with
    | |- context [np_exp_j <$> ?b] => assert (2 ≤ length (np_exp_j <$> b))
        as Hb by (rewrite length_fmap, !length_app; cbn [length]; lia)
    end.
    destruct (take _ _ ++ _) as [|? [|? ?]]; simpl in Ha; try lia.
    destruct (np_exp_j <$> _) as [|? [|? ?]]; simpl in Hb; try lia. done. }
  apply bind_Returned in Hret as (z & w7 & Hifft & Hret).
  apply ifft_Returned in Hifft as (-> & _ & ->). cbv beta in Hret.
  apply bind_Returned in Hret as (out & w8 & Hout & Hret).
  apply (take_idx_Returned fzero) in Hout as (-> & -> & _).
  injection Hret as <- <-. split; simpl; try done.
  exists (randn (length x) (rng w)).1, rest. split_and!; [|done|].
  - apply randn_length.
  - by rewrite Hd4, <-(assoc_L (++)).
Qed.

(** ** The log of a whole loop *)

(** The calls to [np.random.randn] in a log, in order. *)
Definition randn_draw (d : draw) : option (nat * list float) :=
  match d with DrawRandn n v => Some (n, v) | _ => None end.

Definition randn_draws (ds : list draw) : list (nat * list float) :=
  omap randn_draw ds.

Definition frame_more (x : list float) (fr : frame) : Prop :=
  ∃ w w', channel_more x w fr w'.

(** The noise of a frame: the drawn vector [g] scaled by the standard
    deviation of the channel. *)
Definition noise_of (T : nat) (fr : frame) (g : list float) : Prop :=
  length g = T ∧ f_wV fr = (λ u, fmul u (np_std1 (f_xV_ fr))) <$> g.

Lemma channel_loop_step_more fixed_phase zM rfiV ii x rest w w' :
  channel_loop fixed_phase zM rfiV ii (x :: rest) w = Returned () w' →
  ∃ fr w3 g ph,
    channel_loop fixed_phase zM (Some (f_rfiV fr)) (S ii) rest w3
      = Returned () w' ∧
    frames w3 = frames w ++ [fr] ∧
    frame_of x fr ∧ frame_more x fr ∧ noise_of (length x) fr g ∧
    draws w3 = draws w ++ DrawRandn (length x) g :: ph ∧
    randn_draws ph = [] ∧ length ph = length (rand_draws ph).
Proof.
  intros Hret.
  apply channel_loop_cons in Hret as (fr & w1 & w2 & Hbody & Hassign & Hret).
  pose proof (channel_body_spec _ _ _ _ _ _ Hbody) as Hs.
  pose proof (channel_body_more _ _ _ _ _ _ Hbody) as Hm.
  apply assign_col_log in Hassign as [Hd Hf].
  destruct (cm_noise _ _ _ _ Hm) as (g & rest0 & Hg & HwV & Hdg).
  destruct (cs_draws _ _ _ _ _ _ Hs) as [g' Hg'].
  rewrite (cs_n _ _ _ _ _ _ Hs) in Hg'.
  assert (∃ ph, draws w1 = draws w ++ DrawRandn (length x) g :: ph ∧
                randn_draws ph = [] ∧ length ph = length (rand_draws ph))
    as (ph & Hph & Hnone & Hlen).
  { destruct (f_drew fr).
    - destruct Hg' as (v & _ & Hd1). rewrite Hd1 in Hdg.
      apply app_inv_head in Hdg. injection Hdg as -> _.
      by exists [DrawRand (f_n2 fr - 1) v].
    - destruct Hg' as (_ & Hd1). rewrite Hd1 in Hdg.
      apply app_inv_head in Hdg. injection Hdg as -> _.
      by exists []. }
  exists fr, {| heap := heap w2; rng := rng w2; draws := draws w2;
                frames := frames w2 ++ [fr] |}, g, ph.
  split_and!; simpl; try done.
  - by rewrite Hf, (cs_frames _ _ _ _ _ _ Hs).
  - by eexists _, _, _, _.
  - by eexists _, _.
  - split; [done|]. by rewrite (cs_xV_ _ _ _ _ _ _ Hs).
  - by rewrite Hd.
Qed.

Lemma channel_loop_log fixed_phase zM T chans :
  Forall (λ c, length c = T) chans →
  ∀ rfiV ii w w',
    channel_loop fixed_phase zM rfiV ii chans w = Returned () w' →
    ∃ frs gs ds,
      frames w' = frames w ++ frs ∧ draws w' = draws w ++ ds ∧
      Forall2 (λ x fr, frame_of x fr ∧ frame_more x fr) chans frs ∧
      Forall2 (noise_of T) frs gs ∧
      randn_draws ds = (λ g, (T, g)) <$> gs ∧
      length ds = length gs + length (rand_draws ds).
Proof.
  induction 1 as [|x rest Hx _ IH]; intros rfiV ii w w' Hret.
  - injection Hret as <-. exists [], [], [].
    by rewrite !(right_id_L [] (++)).
  - apply channel_loop_step_more in Hret
      as (fr & w3 & g & ph & Hret & Hf & Hof & Hmore & Hnoise & Hd
          & Hnone & Hlen).
    rewrite Hx in *.
    apply IH in Hret as (frs & gs & ds & Hfrs & Hds & Hall & Hgs & Hrn & Hl).
    exists (fr :: frs), (g :: gs), (DrawRandn T g :: ph ++ ds).
    unfold randn_draws, rand_draws in *. split_and!.
    + by rewrite Hfrs, Hf, <-(assoc_L (++)).
    + rewrite Hds, Hd, <-(assoc_L (++)). done.
    + by constructor.
    + by constructor.
    + simpl. by rewrite omap_app, Hnone, Hrn.
    + simpl. rewrite omap_app, !length_app. lia.
Qed.

Lemma fcs_log xV fixed_phase w T N rows z w' :
  heap w !! xV = Some (Arr2 T N rows) → wf_rows T N rows →
  fourier_constrained_shuffle xV fixed_phase w = Returned z w' →
  ∃ frs gs ds,
    frames w' = frames w ++ frs ∧ draws w' = draws w ++ ds ∧
    Forall2 (λ x fr, frame_of x fr ∧ frame_more x fr) (columns N rows) frs ∧
    Forall2 (noise_of T) frs gs ∧
    randn_draws ds = (λ g, (T, g)) <$> gs ∧
    length ds = length gs + length (rand_draws ds).
Proof.
  intros Hx Hwf Hret. rewrite (fcs_unfold _ _ _ _ _ _ Hx) in Hret.
  apply bind_Returned in Hret as ([] & w1 & Hloop & Hret).
  injection Hret as <- <-.
  apply (channel_loop_log _ _ T) in Hloop; [done|].
  destruct Hwf as [<- _]. apply columns_Forall_length.
Qed.

(** ** The spectrum handed to the inverse transform *)

Lemma phases_lookup (r : list float) (y : float) k :
  1 ≤ k → k ≤ length r →
  let nfiV := [fzero] ++ r ++ [y] ++ (fneg <$> reverse r) in
  nfiV !! k = r !! (k - 1) ∧
  nfiV !! (2 * (length r + 1) - k) = fneg <$> r !! (k - 1).
Proof.
  intros Hk1 Hk2 nfiV. subst nfiV. split.
  - rewrite lookup_app_r by (cbn [length]; lia). cbn [length].
    by rewrite lookup_app_l by lia.
  - rewrite lookup_app_r by (cbn [length]; lia). cbn [length].
    rewrite lookup_app_r by lia.
    rewrite lookup_app_r by (cbn [length]; lia). cbn [length].
    rewrite list_lookup_fmap, reverse_lookup by lia.
    do 2 f_equal. lia.
Qed.

Lemma mirror_lookup {A} (m : list A) n2 k :
  1 ≤ k → k < n2 → n2 + 1 ≤ length m →
  let tmpV := take (n2 + 1) m ++ slice_down_to_1 n2 m in
  tmpV !! k = m !! k ∧ tmpV !! (2 * n2 - k) = m !! k.
Proof.
  intros Hk1 Hk2 Hm tmpV. subst tmpV. unfold slice_down_to_1. split.
  - rewrite lookup_app_l by (rewrite length_take; lia).
    by rewrite lookup_take_lt by lia.
  - rewrite lookup_app_r by (rewrite length_take; lia).
    rewrite length_take.
    rewrite reverse_lookup by (rewrite length_drop, length_take; lia).
    rewrite length_drop, length_take, lookup_drop.
    rewrite lookup_take_lt by lia. f_equal. lia.
Qed.

Lemma frame_spectrum x fr :
  frame_of x fr → frame_more x fr →
  let n2 := length x `div` 2 in
  length (f_magnV fr) = 2 * n2 ∧ length (f_fiV fr) = 2 * n2 ∧
  length (f_nfiV fr) = 2 * n2 ∧ length (f_tmpV fr) = 2 * n2 ∧
  length (f_yftV fr) = length x ∧
  f_nfiV fr !! 0 = Some fzero ∧
  ∀ k, 1 ≤ k → k < n2 →
    ∃ φ m,
      f_rfiV fr !! (k - 1) = Some φ ∧ f_magnV fr !! k = Some m ∧
      f_nfiV fr !! k = Some φ ∧
      f_nfiV fr !! (2 * n2 - k) = Some (fneg φ) ∧
      f_tmpV fr !! k = Some (cscale m (np_exp_j φ)) ∧
      f_tmpV fr !! (2 * n2 - k) = Some (cscale m (np_exp_j (fneg φ))).
Proof.
  intros Hof (w0 & w1 & Hm) n2.
  destruct (frame_lengths x fr Hof) as (_ & Hy & _ & _).
  destruct Hof as (fp & rfiV & w2 & w3 & Hs).
  pose proof (div2_ge_2 _ (cs_size _ _ _ _ _ _ Hs)) as Hn2.
  pose proof (cs_n2 _ _ _ _ _ _ Hs) as Hn2'. fold n2 in Hn2, Hn2'.
  pose proof (cs_rfiV_length _ _ _ _ _ _ Hs) as Hr. rewrite Hn2' in Hr.
  assert (length (f_magnV fr) = 2 * n2) as Hmag
    by by rewrite (cs_magnV _ _ _ _ _ _ Hs), length_fmap, np_fft_length, Hn2'.
  assert (length (f_fiV fr) = 2 * n2) as Hfi
    by by rewrite (cs_fiV _ _ _ _ _ _ Hs), length_fmap, np_fft_length, Hn2'.
  pose proof (cs_nfiV _ _ _ _ _ _ Hs) as HnfiV.
  assert (length (f_nfiV fr) = 2 * n2) as Hnfi.
  { rewrite HnfiV, !length_app, length_fmap, length_reverse.
    cbn [length]. lia. }
  pose proof (cm_tmpV _ _ _ _ Hm) as HtmpV. rewrite Hn2' in HtmpV.
  assert (length (f_tmpV fr) = 2 * n2) as Htmp.
  { rewrite HtmpV, length_zip_with, length_fmap, Hnfi.
    rewrite tmpV_length by lia. lia. }
  split_and!; try done.
  - by rewrite HnfiV.
  - intros k Hk1 Hk2.
    destruct (lookup_lt_is_Some_2 (f_rfiV fr) (k - 1)) as [φ Hφ]; [lia|].
    destruct (lookup_lt_is_Some_2 (f_magnV fr) k) as [m Hmk]; [lia|].
    destruct (phases_lookup (f_rfiV fr) (f_fiV fr !!! (f_n2 fr + 1)) k)
      as [Hp1 Hp2]; [lia..|].
    rewrite <-HnfiV, Hφ in Hp1, Hp2.
    change (fneg <$> Some φ) with (Some (fneg φ)) in Hp2.
    replace (2 * (length (f_rfiV fr) + 1) - k) with (2 * n2 - k) in Hp2
      by lia.
    destruct (mirror_lookup (f_magnV fr) n2 k) as [Hm1 Hm2]; [lia..|].
    rewrite Hmk in Hm1, Hm2.
    exists φ, m. split_and!; try done.
    + by rewrite HtmpV, lookup_zip_with, Hm1, list_lookup_fmap, Hp1.
    + by rewrite HtmpV, lookup_zip_with, Hm2, list_lookup_fmap, Hp2.
Qed.

(** X4: in every call that returns, the spectrum that the iteration on
    channel [j] hands to the inverse transform has the even length
    [2*(T//2)], phase zero at index 0, and at the indices [k] and
    [2*n2 - k], for [0 < k < n2], the same magnitude [magnV[k]] with the
    opposite phases [rfiV[k-1]] and [-rfiV[k-1]]. *)
Theorem new_spectrum_is_mirrored xV mode w T N rows z w' :
  heap w !! xV = Some (Arr2 T N rows) → wf_rows T N rows →
  fourier_constrained_shuffle xV mode w = Returned z w' →
  ∃ frs,
    frames w' = frames w ++ frs ∧
    ∀ j, j < N →
      ∃ fr, frs !! j = Some fr ∧ f_xV_ fr = col j rows ∧
        length (f_magnV fr) = 2 * (T `div` 2) ∧
        length (f_fiV fr) = 2 * (T `div` 2) ∧
        length (f_nfiV fr) = 2 * (T `div` 2) ∧
        length (f_tmpV fr) = 2 * (T `div` 2) ∧
        length (f_yftV fr) = T ∧
        f_nfiV fr !! 0 = Some fzero ∧
        ∀ k, 1 ≤ k → k < T `div` 2 →
          ∃ φ m,
            f_rfiV fr !! (k - 1) = Some φ ∧ f_magnV fr !! k = Some m ∧
            f_nfiV fr !! k = Some φ ∧
            f_nfiV fr !! (2 * (T `div` 2) - k) = Some (fneg φ) ∧
            f_tmpV fr !! k = Some (cscale m (np_exp_j φ)) ∧
            f_tmpV fr !! (2 * (T `div` 2) - k)
              = Some (cscale m (np_exp_j (fneg φ))).
Proof.
  intros Hx Hwf Hret.
  destruct (fcs_log _ _ _ _ _ _ _ _ Hx Hwf Hret)
    as (frs & gs & ds & Hfrs & _ & Hall & _).
  exists frs. split; [done|]. intros j Hj.
  destruct (Forall2_lookup_l _ _ _ _ _ Hall (columns_lookup N rows j Hj))
    as (fr & Hfr & Hof & Hmore).
  assert (length (col j rows) = T) as Hlen
    by (rewrite col_length; apply Hwf).
  pose proof (frame_spectrum _ _ Hof Hmore) as Hspec.
  simpl in Hspec. rewrite Hlen in Hspec.
  exists fr. split; [done|]. split; [|exact Hspec].
  destruct Hof as (fp & rfiV & w2 & w3 & Hs). apply (cs_xV_ _ _ _ _ _ _ Hs).
Qed.

(** ** The series matched to the ranks of the channel *)

(** X5: in every call that returns, the series [yV] of the iteration on
    channel [j] is a permutation of the scaled noise [wV], and the
    permutation [T = argsort(channel)] that sorts the channel sorts [yV]
    too, into the sorted noise [owV]: [yV] has the rank order of the
    channel. *)
Theorem noise_is_matched_to_channel_ranks xV mode w T N rows z w' :
  heap w !! xV = Some (Arr2 T N rows) → wf_rows T N rows →
  fourier_constrained_shuffle xV mode w = Returned z w' →
  ∃ frs,
    frames w' = frames w ++ frs ∧
    ∀ j, j < N →
      ∃ fr, frs !! j = Some fr ∧
        f_T fr = np_argsort (col j rows) ∧
        f_owV fr = np_sort (f_wV fr) ∧
        f_yV fr ≡ₚ f_wV fr ∧
        (λ r, default fzero (f_yV fr !! r)) <$> f_T fr = f_owV fr ∧
        Sorted fle ((λ r, default fzero (f_yV fr !! r)) <$> f_T fr) ∧
        Sorted fle ((λ r, default fzero (col j rows !! r)) <$> f_T fr).
Proof.
  intros Hx Hwf Hret.
  destruct (fcs_log _ _ _ _ _ _ _ _ Hx Hwf Hret)
    as (frs & gs & ds & Hfrs & _ & Hall & _).
  exists frs. split; [done|]. intros j Hj.
  destruct (Forall2_lookup_l _ _ _ _ _ Hall (columns_lookup N rows j Hj))
    as (fr & Hfr & _ & (w0 & w1 & Hm)).
  set (x := col j rows) in *.
  destruct (cm_noise _ _ _ _ Hm) as (g & rest & Hg & HwV & _).
  pose proof (cm_owV _ _ _ _ Hm) as HowV.
  assert (length (f_owV fr) = length x) as Hlo.
  { rewrite HowV, (Permutation_length (np_sort_perm _)), HwV.
    by rewrite length_fmap. }
  assert (f_T fr ≡ₚ seq 0 (length (f_owV fr))) as HT.
  { rewrite (cm_T _ _ _ _ Hm), Hlo. apply np_argsort_perm. }
  assert ((λ r, default fzero (f_yV fr !! r)) <$> f_T fr = f_owV fr) as Hre.
  { rewrite (cm_yV _ _ _ _ Hm), (cm_ixV _ _ _ _ Hm).
    by apply take_ranks_then_perm. }
  exists fr. split_and!; try done.
  - apply (cm_T _ _ _ _ Hm).
  - rewrite (cm_yV _ _ _ _ Hm).
    trans (f_owV fr); [|rewrite HowV; apply np_sort_perm].
    apply fmap_lookup_perm. rewrite (cm_ixV _ _ _ _ Hm).
    rewrite <-(perm_seq_length _ _ HT). apply argsort_int_perm.
  - rewrite Hre, HowV. apply np_sort_sorted.
  - rewrite (cm_T _ _ _ _ Hm). apply np_argsort_sorted.
Qed.

(** ** What a call asks of the random generator *)

(** X3: a call of [fourier_constrained_shuffle] that returns has asked
    the generator for one [randn(T)] per channel, in the order of the
    channels, the noise [wV] of channel [j] being the [j]-th vector scaled
    by the standard deviation of the channel; every other draw is a
    [rand], and no permutation is drawn. *)
Theorem one_gaussian_draw_per_channel xV mode w T N rows z w' :
  heap w !! xV = Some (Arr2 T N rows) → wf_rows T N rows →
  fourier_constrained_shuffle xV mode w = Returned z w' →
  ∃ frs gs ds,
    frames w' = frames w ++ frs ∧ draws w' = draws w ++ ds ∧
    length frs = N ∧ length gs = N ∧
    Forall2 (noise_of T) frs gs ∧
    randn_draws ds = (λ g, (T, g)) <$> gs ∧
    length ds = N + length (rand_draws ds).
Proof.
  intros Hx Hwf Hret.
  destruct (fcs_log _ _ _ _ _ _ _ _ Hx Hwf Hret)
    as (frs & gs & ds & Hfrs & Hds & Hall & Hgs & Hrn & Hlen).
  pose proof (Forall2_length _ _ _ Hall) as Hl1.
  pose proof (Forall2_length _ _ _ Hgs) as Hl2.
  rewrite columns_length in Hl1.
  exists frs, gs, ds. split_and!; try done; lia.
Qed.

(** ** Calls that raise *)

Lemma channel_body_no_points_world fixed_phase rfiV x w :
  length x ≤ 1 →
  channel_body fixed_phase rfiV x w =
  Raised ValueError
    {| heap := heap w; rng := (randn (length x) (rng w)).2;
       draws := draws w ++ [DrawRandn (length x)
                              (randn (length x) (rng w)).1];
       frames := frames w |}.
Proof.
  intros Hn. unfold channel_body. cbv zeta.
  erewrite bind_step by reflexivity.
  erewrite bind_step
    by (apply rank_match_ok; by rewrite length_fmap, randn_length).
  apply bind_fail. unfold fft.
  assert (length x `div` 2 = 0) as -> by (apply Nat.div_small; lia).
  reflexivity.
Qed.

Lemma channel_body_no_bin_world fixed_phase x w :
  length x = 2 ∨ length x = 3 →
  let r := randn (length x) (rng w) in
  channel_body fixed_phase None x w =
  Raised IndexError
    {| heap := heap w; rng := (rand 0 r.2).2;
       draws := (draws w ++ [DrawRandn (length x) r.1])
                  ++ [DrawRand 0 (rand 0 r.2).1];
       frames := frames w |}.
Proof.
  intros Hn r.
  assert (length x `div` 2 = 1) as Hn2
    by (destruct Hn as [-> | ->]; reflexivity).
  unfold channel_body. cbv zeta.
  erewrite bind_step by reflexivity.
  erewrite bind_step
    by (apply rank_match_ok; by rewrite length_fmap, randn_length).
  erewrite bind_step
    by (apply fft_Returned; split_and!; [reflexivity|lia|reflexivity]).
  rewrite Hn2.
  erewrite bind_step by (destruct fixed_phase; reflexivity).
  cbv beta iota. apply bind_fail. unfold item.
  rewrite lookup_ge_None_2; [reflexivity|].
  rewrite length_fmap, np_fft_length. lia.
Qed.

(** X8: a call on fewer than four samples and at least one channel does
    not fail before it touches the generator: when it raises it has drawn
    the noise of the first channel, and for two or three samples an empty
    vector of phases as well; no iteration has completed. *)
Theorem short_input_fails_after_drawing xV mode w T N rows :
  heap w !! xV = Some (Arr2 T N rows) → wf_rows T N rows →
  T < 4 → 1 ≤ N →
  ∃ w' g,
    fourier_constrained_shuffle xV mode w =
      Raised (if decide (T ≤ 1) then ValueError else IndexError) w' ∧
    length g = T ∧
    draws w' = draws w ++ DrawRandn T g ::
                 (if decide (T ≤ 1) then [] else [DrawRand 0 []]) ∧
    frames w' = frames w.
Proof.
  intros Hx [HT _] Hlt HN. rewrite (fcs_unfold _ _ _ _ _ _ Hx).
  unfold columns. destruct N as [|N]; [lia|]. cbn [seq]. rewrite fmap_cons.
  set (zM := fresh (dom (heap w))).
  assert (length (col 0 rows) = T) as Hc by by rewrite col_length.
  cbn [channel_loop]. case_decide as HT1.
  - eexists _, (randn T (rng w)).1. split.
    + apply bind_fail, bind_fail.
      apply channel_body_no_points_world. lia.
    + simpl. rewrite Hc. split_and!; [apply randn_length|done..].
  - eexists _, (randn T (rng w)).1. split.
    + apply bind_fail, bind_fail.
      apply channel_body_no_bin_world. lia.
    + simpl. rewrite Hc. split_and!; [apply randn_length| |done].
      rewrite <-(assoc_L (++)). simpl.
      by rewrite (nil_length_inv _ (rand_length 0 (randn T (rng w)).2)).
Qed.

(** ** Degenerate inputs of [fourier_constrained_shuffle] *)

(** X6: on a one-dimensional array [fourier_constrained_shuffle] raises
    [TypeError] (the length of a scalar) unless the array is empty, which
    it returns as an empty array; the generator is not touched. *)
Theorem flat_input_of_aaft xV mode w v :
  heap w !! xV = Some (Arr1 v) →
  ∃ w', draws w' = draws w ∧ frames w' = frames w ∧
    match v with
    | [] => ∃ z, fourier_constrained_shuffle xV mode w = Returned z w' ∧
                 z ≠ xV ∧ heap w' !! z = Some (Arr1 [])
    | _ :: _ => fourier_constrained_shuffle xV mode w = Raised TypeError w'
    end.
Proof.
  intros Hx. pose proof (fresh_loc_ne w xV _ Hx) as Hne.
  unfold fourier_constrained_shuffle.
  erewrite bind_step by (unfold load; by rewrite Hx).
  erewrite bind_step by reflexivity.
  destruct v as [|x v]; eexists; (split_and!; [| |try eexists; try split_and!;
    try reflexivity]); try done.
  simpl. apply lookup_insert_eq.
Qed.

(** X7: on a matrix without channels [fourier_constrained_shuffle]
    returns a new matrix of the same shape for every number of samples,
    fewer than four included, and asks nothing of the generator. *)
Theorem no_channel_input_of_aaft xV mode w T rows :
  heap w !! xV = Some (Arr2 T 0 rows) →
  ∃ z w',
    fourier_constrained_shuffle xV mode w = Returned z w' ∧ z ≠ xV ∧
    heap w' !! z = Some (Arr2 T 0 (replicate T [])) ∧
    draws w' = draws w ∧ frames w' = frames w ∧ rng w' = rng w.
Proof.
  intros Hx. pose proof (fresh_loc_ne w xV _ Hx) as Hne.
  rewrite (fcs_unfold _ _ _ _ _ _ Hx). eexists _, _.
  split; [reflexivity|]. simpl. split_and!; try done.
  apply lookup_insert_eq.
Qed.

(** X9: on a matrix with one channel the two modes of
    [fourier_constrained_shuffle] are the same computation: they end in
    the same outcome and the same world. *)
Theorem modes_agree_on_one_channel xV w T rows :
  heap w !! xV = Some (Arr2 T 1 rows) →
  fourier_constrained_shuffle xV true w =
  fourier_constrained_shuffle xV false w.
Proof.
  intros Hx. rewrite !(fcs_unfold _ _ _ _ _ _ Hx). reflexivity.
Qed.

(** ** The free order of [uniform_shuffle] *)

Lemma mapM_permuted_log T (cs : list (list float)) :
  Forall (λ c, length c = T) cs →
  ∀ w, ∃ ps w',
    mapM permuted cs w =
      Returned (zip_with (λ c p, (λ i, default fzero (c !! i)) <$> p) cs ps)
        w' ∧
    heap w' = heap w ∧ frames w' = frames w ∧
    draws w' = draws w ++ (DrawPermutation T <$> ps) ∧
    length ps = length cs ∧ Forall (λ p, p ≡ₚ seq 0 T) ps.
Proof.
  induction 1 as [|c cs Hc _ IH]; intros w.
  - exists [], w. split_and!; try done.
    simpl. by rewrite (right_id_L [] (++)).
  - pose proof (permuted_returns c w) as Hp. simpl in Hp. rewrite Hc in Hp.
    match type of Hp with _ = Returned _ ?w1 =>
      destruct (IH w1) as (ps & w' & Hcs & Hh & Hf & Hd & Hl & Hall) end.
    exists ((permutation T (rng w)).1 :: ps), w'. split_and!.
    + simpl. erewrite bind_step by exact Hp.
      erewrite bind_step by exact Hcs. reflexivity.
    + by rewrite Hh.
    + by rewrite Hf.
    + rewrite Hd. simpl. by rewrite <-(assoc_L (++)).
    + simpl. by rewrite Hl.
    + constructor; [apply permutation_perm|done].
Qed.

(** X1: with [fixed_order=False] and at least one channel,
    [uniform_shuffle] asks the generator for one permutation of
    [0, ..., T-1] per channel, in the order of the channels, and channel
    [j] of the result is channel [j] of the input indexed by the [j]-th
    one. *)
Theorem free_order_draws_one_permutation_per_channel xV w T N rows :
  heap w !! xV = Some (Arr2 T N rows) → wf_rows T N rows → 1 ≤ N →
  ∃ ps z w' rows',
    uniform_shuffle xV false w = Returned z w' ∧
    draws w' = draws w ++ (DrawPermutation T <$> ps) ∧
    length ps = N ∧ Forall (λ p, p ≡ₚ seq 0 T) ps ∧
    heap w' !! z = Some (Arr2 T N rows') ∧ wf_rows T N rows' ∧
    ∀ j p, ps !! j = Some p →
      col j rows' = (λ i, default fzero (col j rows !! i)) <$> p.
Proof.
  intros Hx Hwf HN.
  assert (Forall (λ c, length c = T) (columns N rows)) as Hcols
    by (destruct Hwf as [<- _]; apply columns_Forall_length).
  destruct (mapM_permuted_log T _ Hcols w)
    as (ps & w1 & Hm & Hh & Hf & Hd & Hl & Hall).
  rewrite columns_length in Hl.
  set (cols' := zip_with (λ c p, (λ i, default fzero (c !! i)) <$> p)
                  (columns N rows) ps) in *.
  assert (length cols' = N) as Hlen.
  { unfold cols'. rewrite length_zip_with, columns_length. lia. }
  assert (np_transpose (np_array T cols') = Arr2 T N (columns T cols'))
    as Hshape.
  { destruct cols' as [|c cs]; simpl in *; [lia|]. by rewrite Hlen. }
  exists ps, (fresh (dom (heap w))),
    (with_heap w1 (<[fresh (dom (heap w)) := Arr2 T N (columns T cols')]>
                     (heap w))), (columns T cols').
  split_and!; try done.
  - unfold uniform_shuffle.
    erewrite bind_step by (unfold load; by rewrite Hx). cbv beta iota.
    erewrite bind_step by exact Hm.
    unfold alloc, with_heap. by rewrite Hh, Hshape.
  - simpl. apply lookup_insert_eq.
  - rewrite <-Hlen. apply wf_rows_columns.
  - intros j p Hp.
    assert (j < N) as Hj by (apply lookup_lt_Some in Hp; lia).
    assert (cols' !! j
              = Some ((λ i, default fzero (col j rows !! i)) <$> p)) as Hc.
    { unfold cols'. rewrite lookup_zip_with, columns_lookup by done.
      simpl. by rewrite Hp. }
    rewrite (col_columns T cols' j _ Hc); [done|].
    rewrite length_fmap. apply perm_seq_length.
    eapply Forall_lookup_1 in Hall; [exact Hall|exact Hp].
Qed.

(** X2: the shape of the result of [uniform_shuffle] on every
    two-dimensional input, degenerate ones included: with
    [fixed_order=True] it is the shape [(T, N)] of the input; with
    [fixed_order=False] it is [(T, N)] when there is a channel, and the
    one-dimensional shape [(0,)] when there is none. *)
Theorem shape_of_uniform_shuffle xV mode w T N rows :
  heap w !! xV = Some (Arr2 T N rows) → wf_rows T N rows →
  ∃ z w' a',
    uniform_shuffle xV mode w = Returned z w' ∧
    heap w' !! z = Some a' ∧
    shape a' = if mode then [T; N]
               else if decide (N = 0) then [0] else [T; N].
Proof.
  intros Hx Hwf. destruct mode.
  - pose proof (uniform_shuffle_fixed xV w T N rows Hx Hwf) as Hret.
    simpl in Hret. eexists _, _, _. split; [exact Hret|]. simpl.
    split; [apply lookup_insert_eq|]. simpl.
    by rewrite (perm_seq_length _ _ (permutation_perm T (rng w))).
  - destruct (uniform_shuffle_free xV w T N rows Hx Hwf)
      as (cols' & w1 & Hret & Hall).
    simpl in Hret. eexists _, _, _. split; [exact Hret|]. simpl.
    split; [apply lookup_insert_eq|].
    pose proof (Forall2_length _ _ _ Hall) as Hlen.
    rewrite columns_length in Hlen.
    destruct cols' as [|c cs]; simpl in *.
    + by rewrite decide_True by done.
    + rewrite decide_False by lia. by rewrite Hlen.
Qed.

(** ** Whole rows under the fixed order *)

(** X12: with [fixed_order=True] the rows of the result are the rows of
    the input in another order, so the samples of one time stay together:
    two channels that are equal in the input are equal in the result. *)
Theorem fixed_order_keeps_rows_together xV w T N rows :
  heap w !! xV = Some (Arr2 T N rows) → wf_rows T N rows →
  ∃ z w' rows',
    uniform_shuffle xV true w = Returned z w' ∧
    heap w' !! z = Some (Arr2 T N rows') ∧
    rows' ≡ₚ rows ∧
    ∀ j k, col j rows = col k rows → col j rows' = col k rows'.
Proof.
  intros Hx Hwf.
  pose proof (uniform_shuffle_fixed xV w T N rows Hx Hwf) as Hret.
  simpl in Hret.
  pose proof (permutation_perm T (rng w)) as Hp.
  rewrite (perm_seq_length _ _ Hp) in Hret.
  eexists _, _, _. split; [exact Hret|]. simpl. split_and!.
  - apply lookup_insert_eq.
  - apply fmap_lookup_perm. destruct Hwf as [-> _]. done.
  - intros j k Hjk. by rewrite !col_take_rows, Hjk.
Qed.

(** X11: the fixed order loses nothing: indexing the rows of the result
    by the ranks [argsort(p)] of the permutation [p] that was drawn gives
    the rows of the input back. *)
Theorem fixed_order_is_undone_by_ranks xV w T N rows :
  heap w !! xV = Some (Arr2 T N rows) → wf_rows T N rows →
  ∃ p z w' rows',
    uniform_shuffle xV true w = Returned z w' ∧
    draws w' = draws w ++ [DrawPermutation T p] ∧
    heap w' !! z = Some (Arr2 T N rows') ∧
    (λ k, default [] (rows' !! k)) <$> argsort_int p = rows.
Proof.
  intros Hx Hwf.
  pose proof (uniform_shuffle_fixed xV w T N rows Hx Hwf) as Hret.
  simpl in Hret.
  pose proof (permutation_perm T (rng w)) as Hp.
  rewrite (perm_seq_length _ _ Hp) in Hret.
  eexists _, _, _, _. split; [exact Hret|]. simpl. split_and!; [done| |].
  - apply lookup_insert_eq.
  - apply take_perm_then_ranks. destruct Hwf as [-> _]. done.
Qed.

(** ** The store *)

(** X10: a call of either function that returns has added one array to
    the store, at a location that held nothing, and has left every array
    that was there as it was. *)
Theorem shuffles_add_one_array xV mode w T N rows :
  heap w !! xV = Some (Arr2 T N rows) → wf_rows T N rows →
  (∀ z w', uniform_shuffle xV mode w = Returned z w' →
     heap w !! z = None ∧ ∃ a', heap w' = <[z := a']> (heap w)) ∧
  (∀ z w', fourier_constrained_shuffle xV mode w = Returned z w' →
     heap w !! z = None ∧ ∃ a', heap w' = <[z := a']> (heap w)).
Proof.
  intros Hx Hwf.
  assert (heap w !! fresh (dom (heap w)) = None) as Hfresh
    by (apply not_elem_of_dom, is_fresh).
  split; intros z w' Hret.
  - destruct mode.
    + rewrite (uniform_shuffle_fixed xV w T N rows Hx Hwf) in Hret.
      injection Hret as <- <-. split; [done|]. by eexists.
    + destruct (uniform_shuffle_free xV w T N rows Hx Hwf)
        as (cols' & w1 & Hret' & _).
      simpl in Hret'. rewrite Hret' in Hret.
      injection Hret as <- <-. split; [done|]. by eexists.
  - destruct (fcs_spec _ _ _ _ _ _ _ _ Hx Hwf Hret)
      as (rows' & frs & _ & Hh & _).
    rewrite (fcs_unfold _ _ _ _ _ _ Hx) in Hret.
    apply bind_Returned in Hret as ([] & w1 & _ & [= <- _]).
    split; [done|]. by eexists.
Qed.

(** ** The inputs on which [fourier_constrained_shuffle] returns *)

(** X14: on a matrix [fourier_constrained_shuffle] returns exactly when
    there is no channel or there are at least four samples; otherwise it
    raises. *)
Theorem aaft_returns_iff xV mode w T N rows :
  heap w !! xV = Some (Arr2 T N rows) → wf_rows T N rows →
  (∃ z w', fourier_constrained_shuffle xV mode w = Returned z w')
  ↔ N = 0 ∨ 4 ≤ T.
Proof.
  intros Hx Hwf. split.
  - intros (z & w' & Hret).
    destruct (decide (N = 0)) as [|HN]; [by left|]. right.
    destruct (decide (4 ≤ T)) as [|HT]; [done|].
    destruct (fcs_raises xV mode w T N rows Hx Hwf ltac:(lia) ltac:(lia))
      as (w1 & Hraise).
    by rewrite Hraise in Hret.
  - intros [->|HT].
    + by eapply fcs_no_channel.
    + by eapply fcs_returns.
Qed.

(** ** The phases that the channels share *)

Lemma lookup_off_middle {A} (pre t : list A) (y1 y2 : A) k :
  k ≠ length pre → (pre ++ y1 :: t) !! k = (pre ++ y2 :: t) !! k.
Proof.
  intros Hk. destruct (decide (k < length pre)) as [Hlt|Hge].
  - by rewrite !lookup_app_l by done.
  - rewrite !lookup_app_r by lia.
    destruct (k - length pre) as [|k'] eqn:Hk'; [lia|done].
Qed.

Lemma nfiV_off_middle (r t : list float) (y1 y2 : float) k :
  k ≠ S (length r) →
  ([fzero] ++ r ++ [y1] ++ t) !! k = ([fzero] ++ r ++ [y2] ++ t) !! k.
Proof.
  intros Hk. by apply (lookup_off_middle (fzero :: r) t y1 y2 k).
Qed.

(** X13: in a call with [fixed_phase=True] that returns, the iterations on
    any two channels have the same free phases [rfiV], and their new phase
    spectra [nfiV] agree at every index but [n2 = T//2]. *)
Theorem fixed_phase_shares_all_but_nyquist xV w T N rows z w' :
  heap w !! xV = Some (Arr2 T N rows) → wf_rows T N rows →
  fourier_constrained_shuffle xV true w = Returned z w' →
  ∃ frs,
    frames w' = frames w ++ frs ∧ length frs = N ∧
    ∀ i j fri frj,
      frs !! i = Some fri → frs !! j = Some frj →
      f_rfiV fri = f_rfiV frj ∧
      ∀ k, k ≠ T `div` 2 → f_nfiV fri !! k = f_nfiV frj !! k.
Proof.
  intros Hx Hwf Hret.
  destruct (fcs_log _ _ _ _ _ _ _ _ Hx Hwf Hret)
    as (frs & gs & ds & Hfrs & _ & Hall & _).
  exists frs. split; [done|].
  pose proof (Forall2_length _ _ _ Hall) as Hlen.
  rewrite columns_length in Hlen. split; [done|].
  assert (∃ r, Forall (λ fr, f_rfiV fr = r) frs) as [r Hr].
  { rewrite (fcs_unfold _ _ _ _ _ _ Hx) in Hret.
    apply bind_Returned in Hret as ([] & w1 & Hloop & Hret).
    injection Hret as _ <-.
    destruct (columns N rows) as [|x rest].
    - apply Forall2_nil_inv_l in Hall as ->. by exists [].
    - apply channel_loop_first in Hloop
        as (fr0 & frs0 & ds0 & v & Hf & _ & _ & _ & _ & _ & _ & Hsh).
      simpl in Hf. rewrite Hfrs in Hf. apply app_inv_head in Hf as ->.
      exists (f_rfiV fr0). constructor; [done|].
      eapply Forall_impl; [exact Hsh|]. by intros fr [_ ?]. }
  assert (∀ i fr, frs !! i = Some fr →
            f_rfiV fr = r ∧ S (length r) = T `div` 2 ∧
            ∃ y, f_nfiV fr = [fzero] ++ r ++ [y] ++ (fneg <$> reverse r))
    as Hfr.
  { intros i fr Hi.
    pose proof (Forall_lookup_1 _ _ _ _ Hr Hi) as Hri. simpl in Hri.
    destruct (Forall2_lookup_r _ _ _ _ _ Hall Hi)
      as (x & Hx' & (fp & rf & w2 & w3 & Hs) & _).
    apply columns_lookup_inv in Hx' as [Hi' ->].
    assert (length (col i rows) = T) as Hc
      by (rewrite col_length; apply Hwf).
    pose proof (cs_rfiV_length _ _ _ _ _ _ Hs) as Hl.
    pose proof (cs_n2 _ _ _ _ _ _ Hs) as Hn2.
    pose proof (div2_ge_2 _ (cs_size _ _ _ _ _ _ Hs)) as Hge.
    rewrite Hc in Hn2, Hge. rewrite Hri, Hn2 in Hl.
    split_and!; [done|lia|].
    eexists. rewrite (cs_nfiV _ _ _ _ _ _ Hs), Hri. reflexivity. }
  intros i j fri frj Hi Hj.
  destruct (Hfr i fri Hi) as (Hri & Hli & yi & Hni).
  destruct (Hfr j frj Hj) as (Hrj & _ & yj & Hnj).
  split; [by rewrite Hri, Hrj|]. intros k Hk.
  rewrite Hni, Hnj. apply nfiV_off_middle. lia.
Qed.

End more.

(** ** The further properties on the mock *)

Module DemoMore.

Import Demo.
Local Existing Instance mock_numpy.

(** Two channels with four samples. *)
Definition rows42 : list (list float) :=
  (λ zs : Z * Z, [Mock.Lit zs.1; Mock.Lit zs.2])
    <$> [(10, 7); (30, 5); (20, 8); (40, 6)]%Z.

Definition w42 : world :=
  mock_world (Arr2 4 2 rows42) [[2; 0; 3; 1]; [1; 3; 0; 2]].

Definition aaft42 : world :=
  final_world (fourier_constrained_shuffle 0 true w42).

Example aaft42_result :
  heap aaft42 !! 1 =
  Some (Arr2 4 2 ((λ zs : Z * Z, [Mock.Lit zs.1; Mock.Lit zs.2])
                    <$> [(40, 8); (30, 7); (20, 6); (10, 5)]%Z)).
Proof. reflexivity. Qed.

Lemma free_order_witness :
  ∃ ps z w' rows',
    uniform_shuffle 0 false w42 = Returned z w' ∧
    draws w' = draws w42 ++ (DrawPermutation 4 <$> ps) ∧
    length ps = 2 ∧ Forall (λ p, p ≡ₚ seq 0 4) ps ∧
    heap w' !! z = Some (Arr2 4 2 rows') ∧ wf_rows 4 2 rows' ∧
    ∀ j p, ps !! j = Some p →
      col j rows' = (λ i, default fzero (col j rows42 !! i)) <$> p.
Proof.
  apply (free_order_draws_one_permutation_per_channel 0 w42 4 2 rows42).
  - reflexivity.
  - split; [reflexivity|]. repeat constructor.
  - lia.
Defined.

Lemma shape_witness :
  ∃ z w' a',
    uniform_shuffle 0 false w10 = Returned z w' ∧
    heap w' !! z = Some a' ∧
    shape a' = if decide (0 = 0) then [0] else [1; 0].
Proof.
  apply (shape_of_uniform_shuffle 0 false w10 1 0 [[]]).
  - reflexivity.
  - split; [reflexivity|]. repeat constructor.
Defined.

Lemma gaussian_draw_witness :
  ∃ frs gs ds,
    frames (aaft4 true) = frames w4 ++ frs ∧
    draws (aaft4 true) = draws w4 ++ ds ∧
    length frs = 1 ∧ length gs = 1 ∧
    Forall2 (noise_of 4) frs gs ∧
    randn_draws ds = (λ g, (4, g)) <$> gs ∧
    length ds = 1 + length (rand_draws ds).
Proof.
  apply (one_gaussian_draw_per_channel 0 true w4 4 1 rows4 1 (aaft4 true)).
  - reflexivity.
  - split; [reflexivity|]. repeat constructor.
  - apply returned_final. vm_compute. reflexivity.
Defined.

Lemma spectrum_witness :
  ∃ frs,
    frames (aaft4 true) = frames w4 ++ frs ∧
    ∀ j, j < 1 →
      ∃ fr, frs !! j = Some fr ∧ f_xV_ fr = col j rows4 ∧
        length (f_magnV fr) = 2 * (4 `div` 2) ∧
        length (f_fiV fr) = 2 * (4 `div` 2) ∧
        length (f_nfiV fr) = 2 * (4 `div` 2) ∧
        length (f_tmpV fr) = 2 * (4 `div` 2) ∧
        length (f_yftV fr) = 4 ∧
        f_nfiV fr !! 0 = Some fzero ∧
        ∀ k, 1 ≤ k → k < 4 `div` 2 →
          ∃ φ m,
            f_rfiV fr !! (k - 1) = Some φ ∧ f_magnV fr !! k = Some m ∧
            f_nfiV fr !! k = Some φ ∧
            f_nfiV fr !! (2 * (4 `div` 2) - k) = Some (fneg φ) ∧
            f_tmpV fr !! k = Some (cscale m (np_exp_j φ)) ∧
            f_tmpV fr !! (2 * (4 `div` 2) - k)
              = Some (cscale m (np_exp_j (fneg φ))).
Proof.
  apply (new_spectrum_is_mirrored 0 true w4 4 1 rows4 1 (aaft4 true)).
  - reflexivity.
  - split; [reflexivity|]. repeat constructor.
  - apply returned_final. vm_compute. reflexivity.
Defined.

Lemma rank_match_witness :
  ∃ frs,
    frames (aaft4 true) = frames w4 ++ frs ∧
    ∀ j, j < 1 →
      ∃ fr, frs !! j = Some fr ∧
        f_T fr = np_argsort (col j rows4) ∧
        f_owV fr = np_sort (f_wV fr) ∧
        f_yV fr ≡ₚ f_wV fr ∧
        (λ r, default fzero (f_yV fr !! r)) <$> f_T fr = f_owV fr ∧
        Sorted fle ((λ r, default fzero (f_yV fr !! r)) <$> f_T fr) ∧
        Sorted fle ((λ r, default fzero (col j rows4 !! r)) <$> f_T fr).
Proof.
  apply (noise_is_matched_to_channel_ranks 0 true w4 4 1 rows4 1 (aaft4 true)).
  - reflexivity.
  - split; [reflexivity|]. repeat constructor.
  - apply returned_final. vm_compute. reflexivity.
Defined.

Lemma flat_input_witness :
  ∃ w', draws w' = draws wflat ∧ frames w' = frames wflat ∧
        fourier_constrained_shuffle 0 true wflat = Raised TypeError w'.
Proof.
  apply (flat_input_of_aaft 0 true wflat [Mock.Lit 10; Mock.Lit 30]).
  reflexivity.
Defined.

Lemma no_channel_witness :
  ∃ z w',
    fourier_constrained_shuffle 0 true w10 = Returned z w' ∧ z ≠ 0 ∧
    heap w' !! z = Some (Arr2 1 0 (replicate 1 [])) ∧
    draws w' = draws w10 ∧ frames w' = frames w10 ∧ rng w' = rng w10.
Proof.
  apply (no_channel_input_of_aaft 0 true w10 1 [[]]). reflexivity.
Defined.

Lemma short_input_witness :
  ∃ w' g,
    fourier_constrained_shuffle 0 true w2 =
      Raised (if decide (2 ≤ 1) then ValueError else IndexError) w' ∧
    length g = 2 ∧
    draws w' = draws w2 ++ DrawRandn 2 g ::
                 (if decide (2 ≤ 1) then [] else [DrawRand 0 []]) ∧
    frames w' = frames w2.
Proof.
  apply (short_input_fails_after_drawing 0 true w2 2 1 rows2).
  - reflexivity.
  - split; [reflexivity|]. repeat constructor.
  - lia.
  - lia.
Defined.

Lemma modes_agree_witness :
  fourier_constrained_shuffle 0 true w4 =
  fourier_constrained_shuffle 0 false w4.
Proof.
  apply (modes_agree_on_one_channel 0 w4 4 rows4). reflexivity.
Defined.

Lemma add_one_array_witness :
  (∀ z w', uniform_shuffle 0 false w4 = Returned z w' →
     heap w4 !! z = None ∧ ∃ a', heap w' = <[z := a']> (heap w4)) ∧
  (∀ z w', fourier_constrained_shuffle 0 false w4 = Returned z w' →
     heap w4 !! z = None ∧ ∃ a', heap w' = <[z := a']> (heap w4)).
Proof.
  apply (shuffles_add_one_array 0 false w4 4 1 rows4).
  - reflexivity.
  - split; [reflexivity|]. repeat constructor.
Defined.

Lemma undone_by_ranks_witness :
  ∃ p z w' rows',
    uniform_shuffle 0 true w6 = Returned z w' ∧
    draws w' = draws w6 ++ [DrawPermutation 6 p] ∧
    heap w' !! z = Some (Arr2 6 1 rows') ∧
    (λ k, default [] (rows' !! k)) <$> argsort_int p = rows6.
Proof.
  apply (fixed_order_is_undone_by_ranks 0 w6 6 1 rows6).
  - reflexivity.
  - split; [reflexivity|]. repeat constructor.
Defined.

Lemma rows_together_witness :
  ∃ z w' rows',
    uniform_shuffle 0 true w42 = Returned z w' ∧
    heap w' !! z = Some (Arr2 4 2 rows') ∧
    rows' ≡ₚ rows42 ∧
    ∀ j k, col j rows42 = col k rows42 → col j rows' = col k rows'.
Proof.
  apply (fixed_order_keeps_rows_together 0 w42 4 2 rows42).
  - reflexivity.
  - split; [reflexivity|]. repeat constructor.
Defined.

Lemma shared_phase_witness :
  ∃ frs,
    frames aaft42 = frames w42 ++ frs ∧ length frs = 2 ∧
    ∀ i j fri frj,
      frs !! i = Some fri → frs !! j = Some frj →
      f_rfiV fri = f_rfiV frj ∧
      ∀ k, k ≠ 4 `div` 2 → f_nfiV fri !! k = f_nfiV frj !! k.
Proof.
  apply (fixed_phase_shares_all_but_nyquist 0 w42 4 2 rows42 1 aaft42).
  - reflexivity.
  - split; [reflexivity|]. repeat constructor.
  - apply returned_final. vm_compute. reflexivity.
Defined.

Lemma returns_iff_witness :
  (∃ z w', fourier_constrained_shuffle 0 true w4 = Returned z w')
  ↔ 1 = 0 ∨ 4 ≤ 4.
Proof.
  apply (aaft_returns_iff 0 true w4 4 1 rows4).
  - reflexivity.
  - split; [reflexivity|]. repeat constructor.
Defined.

End DemoMore.

(** * The generator through a call of [fourier_constrained_shuffle] *)

Section generator.
Context `{Numpy}.

(** The phases that [np.random.rand(n2-1)] gives in an iteration on [T]
    samples that starts in the generator state [s]: the draw comes after
    the [randn(T)] of that iteration. *)
Definition drawn_phases (T : nat) (s : rng_state) : list float :=
  (rand (T `div` 2 - 1) (randn T s).2).1.

(** The generator state that such an iteration ends in, when it draws
    phases and when it does not. *)
Definition next_state (T : nat) (drew : bool) (s : rng_state) : rng_state :=
  if drew then (rand (T `div` 2 - 1) (randn T s).2).2 else (randn T s).2.

(** The states in which the iterations of the frames [frs] start, and the
    state after the last. *)
Fixpoint states (T : nat) (s : rng_state) (frs : list frame)
    : list rng_state :=
  match frs with
  | [] => []
  | fr :: rest => s :: states T (next_state T (f_drew fr) s) rest
  end.

Fixpoint final_state (T : nat) (s : rng_state) (frs : list frame)
    : rng_state :=
  match frs with
  | [] => s
  | fr :: rest => final_state T (next_state T (f_drew fr) s) rest
  end.

(** The calls of [np.random.rand] that the frames [frs] make from [s]. *)
Fixpoint phase_log (T : nat) (s : rng_state) (frs : list frame)
    : list (nat * list float) :=
  match frs with
  | [] => []
  | fr :: rest =>
      (if f_drew fr then [(T `div` 2 - 1, drawn_phases T s)] else [])
        ++ phase_log T (next_state T (f_drew fr) s) rest
  end.

(** A frame whose iteration started in the state [s]: its noise is what
    [randn] gives there, and the phases it drew are what [rand] gives
    next. *)
Definition drawn_from (T : nat) (fr : frame) (s : rng_state) : Prop :=
  f_wV fr = (λ u, fmul u (np_std1 (f_xV_ fr))) <$> (randn T s).1 ∧
  (f_drew fr = true → f_rfiV fr = to_phase <$> drawn_phases T s).

(** What an iteration does with its phases, up to column [j] of the
    result. *)
Definition phases_used (T : nat) (x out : list float) (fr : frame) : Prop :=
  f_xV_ fr = x ∧
  f_nfiV fr = [fzero] ++ f_rfiV fr ++ [f_fiV fr !!! (T `div` 2 + 1)]
                ++ (fneg <$> reverse (f_rfiV fr)) ∧
  f_tmpV fr =
    zip_with cscale
      (take (T `div` 2 + 1) (f_magnV fr)
         ++ slice_down_to_1 (T `div` 2) (f_magnV fr))
      (np_exp_j <$> f_nfiV fr) ∧
  f_yftV fr = np_real <$> np_ifft (f_tmpV fr) T ∧
  out = (λ i, default fzero (np_sort x !! i))
          <$> argsort_int (np_argsort (f_yftV fr)).

Lemma channel_body_rng fixed_phase rfiV x w fr w' :
  channel_body fixed_phase rfiV x w = Returned fr w' →
  let T := length x in
  f_wV fr = (λ u, fmul u (np_std1 x)) <$> (randn T (rng w)).1 ∧
  rng w' = next_state T (f_drew fr) (rng w) ∧
  (f_drew fr = true → f_rfiV fr = to_phase <$> drawn_phases T (rng w)) ∧
  rand_draws (drop (length (draws w)) (draws w')) =
    if f_drew fr then [(T `div` 2 - 1, drawn_phases T (rng w))] else [].
Proof.
  intros Hret T.
  destruct (channel_body_inv _ _ _ _ _ _ Hret) as [Hn _].
  pose proof (div2_ge_2 _ Hn) as Hn2.
  unfold channel_body in Hret. cbv zeta in Hret.
  apply bind_Returned in Hret as (g & w1 & Hg & Hret). cbv beta in Hret.
  injection Hg as <- <-.
  apply bind_Returned in Hret as (yV & w2 & HyV & Hret). cbv beta in Hret.
  apply (take_idx_Returned fzero) in HyV as (-> & -> & _).
  apply bind_Returned in Hret as (tmpV & w3 & Hfft & Hret).
  apply fft_Returned in Hfft as (-> & _ & ->). cbv beta in Hret.
  apply bind_Returned in Hret as ([drew r] & w4 & Hph & Hret).
  cbv beta iota in Hret.
  assert (rng w4 = next_state T drew (rng w) ∧
          (drew = true → r = to_phase <$> drawn_phases T (rng w)) ∧
          rand_draws (drop (length (draws w)) (draws w4)) =
            if drew then [(T `div` 2 - 1, drawn_phases T (rng w))] else [])
    as (Hrng & Hr & Hlog).
  { clear Hret. unfold next_state, drawn_phases. fold T in Hph, Hn2 |- *.
    revert Hph Hn2. generalize (T `div` 2). intros n2 Hph Hn2. revert Hph.
    assert (∀ d : list draw,
              drop (length (draws w)) ((draws w ++ [DrawRandn T
                (randn T (rng w)).1]) ++ d) = DrawRandn T (randn T (rng w)).1
                                                :: d) as Hdrop.
    { intros d. rewrite <-(assoc_L (++)). by rewrite drop_app_length. }
    destruct fixed_phase, rfiV as [r0|]; simpl;
      try (intros [= <- <- <-]; simpl;
           rewrite <-(right_id_L [] (++) (_ ++ [_])), Hdrop; done);
      unfold draw_phases; (case_decide; [lia|]);
      intros [= <- <- <-]; simpl; rewrite Hdrop; done. }
  apply bind_Returned in Hret as (xi & w5 & Hitem & Hret).
  apply item_Returned in Hitem as (-> & _). cbv beta in Hret.
  apply bind_Returned in Hret as (t & w6 & Hmul & Hret). cbv beta in Hret.
  assert (w6 = w4) as ->.
  { pose proof (keeps_heap_np_mul cscale) as _.
    revert Hmul. unfold np_mul. case_decide; [by intros [= _ <-]|].
    destruct (take _ _ ++ _) as [|? [|? ?]];
      destruct (np_exp_j <$> _) as [|? [|? ?]]; try done;
      by intros [= _ <-]. }
  apply bind_Returned in Hret as (z & w7 & Hifft & Hret).
  apply ifft_Returned in Hifft as (-> & _ & ->). cbv beta in Hret.
  apply bind_Returned in Hret as (out & w8 & Hout & Hret).
  apply (take_idx_Returned fzero) in Hout as (-> & -> & _).
  injection Hret as <- <-. simpl. done.
Qed.

Lemma assign_col_rng zM ii v w w' :
  assign_col zM ii v w = Returned () w' → rng w' = rng w.
Proof.
  unfold assign_col, mbind, M_bind, load.
  destruct (heap w !! zM) as [[v0|T N rows]|]; try done.
  case_decide; [done|]. case_decide.
  - by intros [= <-].
  - destruct v as [|? [|? ?]]; try done. by intros [= <-].
Qed.

Lemma channel_loop_rng fixed_phase zM T chans :
  Forall (λ c, length c = T) chans →
  ∀ rfiV ii w w',
    channel_loop fixed_phase zM rfiV ii chans w = Returned () w' →
    ∃ frs ds,
      frames w' = frames w ++ frs ∧ draws w' = draws w ++ ds ∧
      rng w' = final_state T (rng w) frs ∧
      Forall2 (drawn_from T) frs (states T (rng w) frs) ∧
      rand_draws ds = phase_log T (rng w) frs.
Proof.
  induction 1 as [|x rest Hx _ IH]; intros rfiV ii w w' Hret.
  - injection Hret as <-. exists [], [].
    by rewrite !(right_id_L [] (++)).
  - apply channel_loop_cons in Hret as (fr & w1 & w2 & Hbody & Hassign & Hret).
    pose proof (channel_body_spec _ _ _ _ _ _ Hbody) as Hs.
    pose proof (channel_body_rng _ _ _ _ _ _ Hbody) as Hg.
    simpl in Hg. rewrite Hx in Hg.
    destruct Hg as (HwV & Hrng & Hr & Hlog).
    assert (∃ d1, draws w1 = draws w ++ d1) as [d1 Hd1].
    { destruct (cs_draws _ _ _ _ _ _ Hs) as [g Hg].
      destruct (f_drew fr); [destruct Hg as (v & _ & ->)|destruct Hg as [_ ->]];
        by eexists. }
    rewrite Hd1, drop_app_length in Hlog.
    pose proof (assign_col_rng _ _ _ _ _ Hassign) as Hrng2.
    apply assign_col_log in Hassign as [Hd2 Hf2].
    apply IH in Hret as (frs & ds & Hfrs & Hds & Hfin & Hall & Hpl).
    simpl in *. rewrite Hrng2, Hrng in Hfin, Hall, Hpl.
    exists (fr :: frs), (d1 ++ ds). split_and!.
    + by rewrite Hfrs, Hf2, (cs_frames _ _ _ _ _ _ Hs), <-(assoc_L (++)).
    + by rewrite Hds, Hd2, Hd1, <-(assoc_L (++)).
    + done.
    + simpl. constructor; [|done]. split; [|done].
      by rewrite (cs_xV_ _ _ _ _ _ _ Hs).
    + unfold rand_draws in *. simpl. by rewrite omap_app, Hlog, Hpl.
Qed.

Lemma phase_log_no_draw T frs :
  Forall (λ fr, f_drew fr = false) frs → ∀ s, phase_log T s frs = [].
Proof.
  induction 1 as [|fr frs Hfr _ IH]; intros s; [done|].
  simpl. rewrite Hfr. simpl. apply IH.
Qed.

Lemma phase_log_all_draw T frs :
  Forall (λ fr, f_drew fr = true) frs →
  ∀ s, phase_log T s frs
       = (λ s, (T `div` 2 - 1, drawn_phases T s)) <$> states T s frs.
Proof.
  induction 1 as [|fr frs Hfr _ IH]; intros s; [done|].
  simpl. rewrite Hfr. simpl. by rewrite IH.
Qed.

Lemma frame_phases_used T x fr :
  length x = T → frame_of x fr → frame_more x fr →
  phases_used T x (f_out fr) fr.
Proof.
  intros Hlen (fp & rfiV & w0 & w1 & Hs) (w2 & w3 & Hm).
  pose proof (cs_n2 _ _ _ _ _ _ Hs) as Hn2. rewrite Hlen in Hn2.
  pose proof (cs_n _ _ _ _ _ _ Hs) as Hn. rewrite Hlen in Hn.
  unfold phases_used. split_and!.
  - apply (cs_xV_ _ _ _ _ _ _ Hs).
  - by rewrite (cs_nfiV _ _ _ _ _ _ Hs), Hn2.
  - by rewrite (cm_tmpV _ _ _ _ Hm), Hn2.
  - by rewrite (cs_yftV _ _ _ _ _ _ Hs), Hn.
  - rewrite (cs_out _ _ _ _ _ _ Hs), (cs_iyftV _ _ _ _ _ _ Hs).
    by rewrite (cs_T2 _ _ _ _ _ _ Hs), (cs_oxV _ _ _ _ _ _ Hs).
Qed.

(** C8: in a call that returns, every iteration builds its new phases
    [nfiV] from its vector [rfiV], and from them the spectrum, the series
    [yftV] and its column of the result.  With [fixed_phase=True] the
    generator is asked for phases once, in the iteration on the first
    channel: [rfiV] is [2*pi] times what [np.random.rand(n2-1)] gives
    after the [randn] of that iteration, and the iteration on every later
    channel draws none and has the same [rfiV].  With [fixed_phase=False]
    every iteration asks for a vector of its own, in the state the
    generator has then.  The generator ends in the state after these
    draws. *)
Theorem fixed_phase_draws_once xV fixed_phase w T N rows z w' :
  heap w !! xV = Some (Arr2 T N rows) → wf_rows T N rows → 1 ≤ N →
  fourier_constrained_shuffle xV fixed_phase w = Returned z w' →
  ∃ frs ds rows',
    frames w' = frames w ++ frs ∧ draws w' = draws w ++ ds ∧
    length frs = N ∧ heap w' !! z = Some (Arr2 T N rows') ∧
    rng w' = final_state T (rng w) frs ∧
    Forall2 (drawn_from T) frs (states T (rng w) frs) ∧
    (∀ j fr, frs !! j = Some fr →
       phases_used T (col j rows) (col j rows') fr) ∧
    if fixed_phase
    then ∃ fr0 rest,
           frs = fr0 :: rest ∧ f_drew fr0 = true ∧
           f_rfiV fr0 = to_phase <$> drawn_phases T (rng w) ∧
           length (drawn_phases T (rng w)) = T `div` 2 - 1 ∧
           rand_draws ds = [(T `div` 2 - 1, drawn_phases T (rng w))] ∧
           Forall (λ fr, f_drew fr = false ∧ f_rfiV fr = f_rfiV fr0) rest
    else Forall (λ fr, f_drew fr = true) frs ∧
         rand_draws ds =
           (λ s, (T `div` 2 - 1, drawn_phases T s))
             <$> states T (rng w) frs.
Proof.
  intros Hx Hwf HN Hret.
  destruct (fcs_spec _ _ _ _ _ _ _ _ Hx Hwf Hret)
    as (rows' & frs & _ & Hh & _ & Hfrs & Hcols).
  destruct (fcs_log _ _ _ _ _ _ _ _ Hx Hwf Hret)
    as (frs1 & gs & ds1 & Hfrs1 & _ & Hall1 & _).
  rewrite Hfrs in Hfrs1. apply app_inv_head in Hfrs1 as <-.
  pose proof (Forall2_length _ _ _ Hall1) as Hlen.
  rewrite columns_length in Hlen.
  assert (Forall (λ c, length c = T) (columns N rows)) as Hcl
    by (destruct Hwf as [<- _]; apply columns_Forall_length).
  rewrite (fcs_unfold _ _ _ _ _ _ Hx) in Hret.
  apply bind_Returned in Hret as ([] & w1 & Hloop & Hret).
  injection Hret as _ <-.
  destruct (channel_loop_rng _ _ T _ Hcl _ _ _ _ Hloop)
    as (frs2 & ds & Hfrs2 & Hds & Hfin & Hdrawn & Hpl).
  simpl in Hfrs2, Hds, Hfin, Hdrawn, Hpl.
  rewrite Hfrs in Hfrs2. apply app_inv_head in Hfrs2 as <-.
  exists frs, ds, rows'. split_and!; try done.
  - rewrite Hh. apply lookup_insert_eq.
  - intros j fr Hj.
    assert (j < N) as HjN by (apply lookup_lt_Some in Hj; lia).
    destruct (Hcols j HjN) as (fr' & Hfr' & Hof & Hcol).
    rewrite Hj in Hfr'. injection Hfr' as <-.
    destruct (Forall2_lookup_r _ _ _ _ _ Hall1 Hj) as (x & Hx' & _ & Hmore).
    apply columns_lookup_inv in Hx' as [_ ->]. rewrite Hcol.
    apply frame_phases_used; [|done..].
    rewrite col_length. apply Hwf.
  - destruct fixed_phase.
    + destruct (columns N rows) as [|x rest] eqn:Hc.
      { pose proof (columns_length N rows) as Hl. rewrite Hc in Hl.
        simpl in Hl. lia. }
      apply channel_loop_first
        in Hloop as (fr0 & rest0 & ds0 & v & Hf & _ & _ & Hd0 & _ & _ & _
                     & Hsh).
      simpl in Hf. rewrite Hfrs in Hf. apply app_inv_head in Hf as ->.
      simpl in Hdrawn. apply Forall2_cons in Hdrawn as [[_ Hr0] _].
      exists fr0, rest0. split_and!; try done.
      * by apply Hr0.
      * apply rand_length.
      * rewrite Hpl. simpl. rewrite Hd0. simpl.
        rewrite phase_log_no_draw; [done|].
        eapply Forall_impl; [exact Hsh|]. by intros fr [? _].
    + apply (channel_loop_free _ T) in Hloop
        as (frs3 & ds3 & vs & Hf & _ & _ & Hall3 & _); [|done].
      simpl in Hf. rewrite Hfrs in Hf. apply app_inv_head in Hf as <-.
      assert (Forall (λ fr, f_drew fr = true) frs) as Hdrew.
      { apply Forall_forall. intros fr Hfr.
        apply list_elem_of_lookup in Hfr as [i Hi].
        destruct (Forall2_lookup_l _ _ _ _ _ Hall3 Hi) as (v & _ & ? & _).
        done. }
      split; [done|]. by rewrite Hpl, phase_log_all_draw.
Qed.

End generator.

(** * Two or three samples *)

Section short.
Context `{Numpy}.

(** C9, as the code has it: with two or three samples and at least one
    channel, [n2] is 1 and the phases [fiV] of the forward transform of
    the first channel are two, so that the read [fiV[n2+1]] is past their
    end and takes the error branch; the call raises [IndexError], not a
    kind of the error taxonomy, in the world in which that read is made:
    the noise and the empty vector of phases of the first channel have
    been drawn and no iteration has completed. *)
Theorem short_channels_read_out_of_bounds xV mode w T N rows :
  heap w !! xV = Some (Arr2 T N rows) → wf_rows T N rows →
  T = 2 ∨ T = 3 → 1 ≤ N →
  T `div` 2 = 1 ∧
  ∃ w',
    fourier_constrained_shuffle xV mode w = Raised IndexError w' ∧
    let x := col 0 rows in
    let wV := (λ u, fmul u (np_std1 x)) <$> (randn T (rng w)).1 in
    let yV := (λ i, default fzero (np_sort wV !! i))
                <$> argsort_int (np_argsort x) in
    let fiV := np_angle <$> np_fft yV (2 * (T `div` 2)) in
    length fiV = 2 ∧ fiV !! (T `div` 2 + 1) = None ∧
    item fiV (T `div` 2 + 1) w' = Raised IndexError w' ∧
    draws w' = draws w ++ [DrawRandn T (randn T (rng w)).1; DrawRand 0 []] ∧
    frames w' = frames w.
Proof.
  intros Hx [HT _] HT23 HN.
  assert (T `div` 2 = 1) as Hn2 by (destruct HT23 as [-> | ->]; reflexivity).
  split; [done|].
  rewrite (fcs_unfold _ _ _ _ _ _ Hx).
  unfold columns. destruct N as [|N]; [lia|]. cbn [seq]. rewrite fmap_cons.
  assert (length (col 0 rows) = T) as Hc by by rewrite col_length.
  cbn [channel_loop]. eexists. split.
  { apply bind_fail, bind_fail. apply channel_body_no_bin_world. lia. }
  cbv zeta. rewrite Hn2.
  assert (∀ y, length (np_angle <$> np_fft y (2 * 1)) = 2) as Hlen
    by (intros y; by rewrite length_fmap, np_fft_length).
  assert (∀ y, (np_angle <$> np_fft y (2 * 1)) !! (1 + 1) = None) as Hnone
    by (intros y; apply lookup_ge_None_2; rewrite Hlen; lia).
  split_and!; [apply Hlen|apply Hnone| | |done].
  - unfold item. by rewrite Hnone.
  - simpl. rewrite Hc, <-(assoc_L (++)). simpl.
    by rewrite (nil_length_inv _ (rand_length 0 (randn T (rng w)).2)).
Qed.

End short.

(** ** The phases and the short inputs on the mock *)

Module DemoPhases.

Import Demo DemoMore.
Local Existing Instance mock_numpy.

(** The world a call on the two channels of [w42] ends in. *)
Definition aaft42m (fixed_phase : bool) : world :=
  final_world (fourier_constrained_shuffle 0 fixed_phase w42).

(** Two samples and no channel. *)
Definition w20 : world := mock_world (Arr2 2 0 [[]; []]) [].

(** On two channels: with [fixed_phase=True] one vector of phases is
    drawn, by the first iteration, and the second iteration has it too;
    with [fixed_phase=False] the second iteration draws another. *)
Lemma fixed_phase_witness :
  (∃ fr0 fr1,
     frames (aaft42m true) = [fr0; fr1] ∧
     f_drew fr0 = true ∧ f_drew fr1 = false ∧
     f_rfiV fr0 = to_phase <$> [Mock.Lit 5] ∧ f_rfiV fr1 = f_rfiV fr0 ∧
     rand_draws (draws (aaft42m true)) = [(1, [Mock.Lit 5])]) ∧
  (∃ fr0 fr1,
     frames (aaft42m false) = [fr0; fr1] ∧
     f_drew fr0 = true ∧ f_drew fr1 = true ∧
     f_rfiV fr0 = to_phase <$> [Mock.Lit 5] ∧
     f_rfiV fr1 = to_phase <$> [Mock.Lit 4] ∧
     rand_draws (draws (aaft42m false))
       = [(1, [Mock.Lit 5]); (1, [Mock.Lit 4])]).
Proof.
  assert (wf_rows 4 2 rows42) as Hwf
    by (split; [reflexivity|]; repeat constructor).
  split.
  - destruct (fixed_phase_draws_once 0 true w42 4 2 rows42 1 (aaft42m true))
      as (frs & ds & rows' & Hf & Hd & Hl & _ & _ & _ & _
          & (fr0 & rest & -> & Hd0 & Hr0 & _ & Hlog & Hsh)).
    + reflexivity.
    + exact Hwf.
    + lia.
    + apply returned_final. vm_compute. reflexivity.
    + destruct rest as [|fr1 [|? ?]]; try discriminate Hl.
      apply Forall_cons in Hsh as [[Hd1 Hr1] _].
      exists fr0, fr1. split_and!.
      * exact Hf.
      * exact Hd0.
      * exact Hd1.
      * exact Hr0.
      * exact Hr1.
      * rewrite Hd. exact Hlog.
  - destruct (fixed_phase_draws_once 0 false w42 4 2 rows42 1 (aaft42m false))
      as (frs & ds & rows' & Hf & Hd & Hl & _ & _ & Hdr & _ & (Hdrew & Hlog)).
    + reflexivity.
    + exact Hwf.
    + lia.
    + apply returned_final. vm_compute. reflexivity.
    + destruct frs as [|fr0 [|fr1 [|? ?]]]; try discriminate Hl.
      apply Forall_cons in Hdrew as [Hd0 Hdrew].
      apply Forall_cons in Hdrew as [Hd1 _].
      simpl in Hdr, Hlog. rewrite Hd0 in Hdr, Hlog.
      apply Forall2_cons in Hdr as [[_ Hr0] Hdr].
      apply Forall2_cons in Hdr as [[_ Hr1] _].
      exists fr0, fr1. split_and!.
      * exact Hf.
      * exact Hd0.
      * exact Hd1.
      * exact (Hr0 Hd0).
      * exact (Hr1 Hd1).
      * rewrite Hd. exact Hlog.
Defined.

Lemma short_channels_witness :
  2 `div` 2 = 1 ∧
  ∃ w',
    fourier_constrained_shuffle 0 true w2 = Raised IndexError w' ∧
    draws w' = [DrawRandn 2 [Mock.Lit (-1); Mock.Lit (-3)]; DrawRand 0 []] ∧
    frames w' = [].
Proof.
  destruct (short_channels_read_out_of_bounds 0 true w2 2 1 rows2)
    as (Hn2 & w' & Hret & _ & _ & _ & Hd & Hf).
  - reflexivity.
  - split; [reflexivity|]. repeat constructor.
  - left. reflexivity.
  - lia.
  - split; [exact Hn2|]. exists w'. split_and!.
    + exact Hret.
    + exact Hd.
    + exact Hf.
Defined.

(** Two samples and no channel: the call returns a new 2-by-0 matrix; no
    iteration runs, nothing is read and nothing is raised. *)
Lemma two_by_zero_matrix_is_returned :
  (∃ w', fourier_constrained_shuffle 0 true w20 = Returned 1 w' ∧
         heap w' !! 1 = Some (Arr2 2 0 [[]; []]) ∧
         draws w' = [] ∧ frames w' = []) ∧
  ¬ (∃ w', fourier_constrained_shuffle 0 true w20 = Raised IndexError w').
Proof.
  split.
  - exists (final_world (fourier_constrained_shuffle 0 true w20)).
    split_and!; [|reflexivity..].
    apply returned_final. vm_compute. reflexivity.
  - intros [w' Hw]. apply (f_equal raised) in Hw.
    vm_compute in Hw. discriminate Hw.
Qed.

End DemoPhases.
